(** * Kruskal's minimum spanning tree over a union-find forest

    A shallow embedding of [algorithms/thirteenAlgorithms/kruskal.py]:
    the class [Graph] with [add_edge], [find], [union] and [kruskalMST].

    Python integers are unbounded, so vertex indices, ranks and weights are
    [Z].  Python lists are [list]s read and written through [getitem] and
    [setitem], which implement the interpreter's index rule: a negative
    index counts from the end, and an index outside [-len, len) raises
    [IndexError].  The two lists [parent] and [rank] that [find] and [union]
    receive by reference live in a [store] threaded by a small state and
    error monad.  The recursion of [find] is bounded by a fuel argument;
    running out of it stands for a recursion that does not return. *)

From stdpp Require Import base list numbers list_numbers sorting strings pretty.
From Stdlib Require Import ZArith Lia Permutation.

Open Scope Z_scope.

(** ** Outcomes *)

Inductive result (A : Type) : Type :=
| Ok (a : A)
| IndexError
| OutOfFuel.
Arguments Ok {A} a.
Arguments IndexError {A}.
Arguments OutOfFuel {A}.

Global Instance result_ret : MRet result := λ A a, Ok a.
Global Instance result_bind : MBind result := λ A B f m,
  match m with
  | Ok a => f a
  | IndexError => IndexError
  | OutOfFuel => OutOfFuel
  end.

(** ** Python lists *)

(** The position a subscript [i] denotes in a list of [len] items. *)
Definition py_index (len : nat) (i : Z) : option nat :=
  let j := if i <? 0 then i + Z.of_nat len else i in
  if (0 <=? j) && (j <? Z.of_nat len) then Some (Z.to_nat j) else None.

(** [l[i]] *)
Definition getitem {A : Type} (l : list A) (i : Z) : result A :=
  match py_index (length l) i with
  | Some n => match l !! n with Some x => Ok x | None => IndexError end
  | None => IndexError
  end.

(** [l[i] = x] *)
Definition setitem {A : Type} (l : list A) (i : Z) (x : A) : result (list A) :=
  match py_index (length l) i with
  | Some n => Ok (<[n := x]> l)
  | None => IndexError
  end.

(** [range(n)] *)
Definition range (n : Z) : list Z := seqZ 0 n.

(** [sorted(l, key=key)]: the stable ascending sort. *)
Fixpoint insert_by {A : Type} (key : A → Z) (x : A) (l : list A) : list A :=
  match l with
  | [] => [x]
  | y :: l' => if key x <=? key y then x :: y :: l' else y :: insert_by key x l'
  end.

Definition sorted {A : Type} (key : A → Z) (l : list A) : list A :=
  foldr (insert_by key) [] l.

(** ** The graph object *)

(** An item [[u, v, w]] of [self.graph]. *)
Record Edge : Type := mkEdge { edge_u : Z; edge_v : Z; edge_w : Z }.

Global Instance Edge_eq_dec : EqDecision Edge.
Proof. solve_decision. Defined.

Record Graph : Type := mkGraph { v : Z; graph : list Edge }.

(** [Graph(vertices)] *)
Definition Graph_init (vertices : Z) : Graph := mkGraph vertices [].

Definition add_edge (self : Graph) (u0 v0 w0 : Z) : Graph :=
  mkGraph (v self) (graph self ++ [mkEdge u0 v0 w0]).

(** ** The disjoint-set store and its monad *)

Record store : Type := Store { parent : list Z; rank : list Z }.

Definition M (A : Type) : Type := store → result (A * store).

Global Instance M_ret : MRet M := λ A a s, Ok (a, s).
Global Instance M_bind : MBind M := λ A B f m s,
  match m s with
  | Ok (a, s') => f a s'
  | IndexError => IndexError
  | OutOfFuel => OutOfFuel
  end.

Definition diverge {A : Type} : M A := λ _, OutOfFuel.

(** [parent[i]] and [rank[i]] *)
Definition parent_at (i : Z) : M Z := λ s,
  x ← getitem (parent s) i; Ok (x, s).
Definition rank_at (i : Z) : M Z := λ s,
  x ← getitem (rank s) i; Ok (x, s).

(** [parent[i] = x] and [rank[i] = x] *)
Definition set_parent (i x : Z) : M unit := λ s,
  p ← setitem (parent s) i x; Ok (tt, Store p (rank s)).
Definition set_rank (i x : Z) : M unit := λ s,
  r ← setitem (rank s) i x; Ok (tt, Store (parent s) r).

(** [find(parent, i)] *)
Fixpoint find (fuel : nat) (i : Z) : M Z :=
  match fuel with
  | O => diverge
  | S fuel' =>
      p_i ← parent_at i;
      if p_i =? i then mret i
      else p_i' ← parent_at i; find fuel' p_i'
  end.

(** [union(parent, rank, x, y)] *)
Definition union (fuel : nat) (x y : Z) : M unit :=
  xroot ← find fuel x;
  yroot ← find fuel y;
  rx ← rank_at xroot;
  ry ← rank_at yroot;
  if rx <? ry then set_parent xroot yroot
  else
    rx' ← rank_at xroot;
    ry' ← rank_at yroot;
    if rx' >? ry' then set_parent yroot xroot
    else
      set_parent yroot xroot;;
      r ← rank_at xroot;
      set_rank xroot (r + 1).

(** ** [kruskalMST] *)

(** The loop [for node in range(self.v)] that fills [parent] and [rank]. *)
Definition make_sets (n : Z) : store :=
  foldl (λ s node, Store (parent s ++ [node]) (rank s ++ [0])) (Store [] []) (range n).

(** The local variables of [kruskalMST] that the [while] loop updates. *)
Record locals : Type := Locals { uf : store; i : Z; e : Z; mst : list Edge }.

(** One pass through the body of the [while] loop. *)
Definition loop_body (fuel : nat) (self : Graph) (c : locals) : result locals :=
  '(mkEdge u0 v0 w0) ← getitem (graph self) (i c);
  let i' := i c + 1 in
  '(x, s1) ← find fuel u0 (uf c);
  '(y, s2) ← find fuel v0 s1;
  if negb (x =? y) then
    let e' := e c + 1 in
    let mst' := mst c ++ [mkEdge u0 v0 w0] in
    '(_, s3) ← union fuel x y s2;
    Ok (Locals s3 i' e' mst')
  else Ok (Locals s2 i' (e c) (mst c)).

(** [while e < self.v - 1: ...], unrolled at most [n] times. *)
Fixpoint while_loop (n : nat) (fuel : nat) (self : Graph) (c : locals) : result locals :=
  if e c <? v self - 1 then
    match n with
    | O => OutOfFuel
    | S n' => c' ← loop_body fuel self c; while_loop n' fuel self c'
    end
  else Ok c.

(** The locals when the loop is first entered: [parent] and [rank] filled
    for [n] vertices, [i = 0], [e = 0], [mst = []]. *)
Definition c0 (n : Z) : locals := Locals (make_sets n) 0 0 [].

(** What [kruskalMST] prints: the header, one line per edge, the total. *)
Record output : Type :=
  Output { out_mst : list Edge; minimum_cost : Z; stdout : list string }.

Definition edge_line (ed : Edge) : string :=
  pretty (edge_u ed) +:+ " -- " +:+ pretty (edge_v ed) +:+ ": weight == "
    +:+ pretty (edge_w ed).

Definition report (tree : list Edge) : output :=
  let cost := foldl (λ acc ed, acc + edge_w ed) 0 tree in
  Output tree cost
    (["Edges in the constructed MST:"%string] ++ (edge_line <$> tree)
       ++ ["Minimum spanning tree's total weight: " +:+ pretty cost]).

(** The method returns nothing; its effects are the assignment to
    [self.graph] and the printed lines, or an exception after the
    assignment.  Every pass of the loop reads [self.graph[i]] and adds one
    to [i], so [S (length self.graph)] passes are all there can be. *)
Definition kruskalMST (fuel : nat) (self : Graph) : Graph * result output :=
  let self' := mkGraph (v self) (sorted edge_w (graph self)) in
  (self', c ← while_loop (S (length (graph self'))) fuel self' (c0 (v self'));
          Ok (report (mst c))).

(** The graph built under [if __name__ == '__main__']. *)
Definition main_graph : Graph :=
  add_edge (add_edge (add_edge (add_edge (add_edge (Graph_init 4)
    0 1 10) 0 2 6) 0 3 5) 1 3 15) 2 3 4.

(** Further inputs used below. *)

(** Two islands, 0-1 and 2-3, on four vertices. *)
Definition islands : Graph :=
  add_edge (add_edge (Graph_init 4) 0 1 1) 2 3 2.

(** The graph on five vertices whose fourth pass calls [find(parent, 3)]
    with vertex 3 two links below its root. *)
Definition chain_graph : Graph :=
  add_edge (add_edge (add_edge (add_edge (Graph_init 5)
    0 1 1) 2 3 2) 1 3 3) 3 4 4.

(** Two vertices, and an edge to a vertex 5 that does not exist, heavier
    than the edge 0-1. *)
Definition stray_graph : Graph :=
  add_edge (add_edge (Graph_init 2) 0 5 2) 0 1 1.

(** The three edges at vertex 0: another spanning tree of the main graph,
    of weight 21. *)
Definition star_tree : list Edge := [mkEdge 0 1 10; mkEdge 0 2 6; mkEdge 0 3 5].

(** * The vocabulary of the properties *)

(** ** Forests of parent links *)

(** [r] is its own parent. *)
Definition is_root (p : list Z) (r : Z) : Prop :=
  0 ≤ r ∧ p !! Z.to_nat r = Some r.

Global Instance is_root_dec (p : list Z) (r : Z) : Decision (is_root p r).
Proof. unfold is_root. apply _. Defined.

(** [root_in p n i r]: from [i], at most [n] parent links lead to the root [r]. *)
Inductive root_in (p : list Z) : nat → Z → Z → Prop :=
| root_in_here (n : nat) (r : Z) :
    is_root p r → root_in p n r r
| root_in_up (n : nat) (i j r : Z) :
    0 ≤ i → p !! Z.to_nat i = Some j → j ≠ i →
    root_in p n j r → root_in p (S n) i r.

Definition root_of (p : list Z) (i r : Z) : Prop := ∃ n, root_in p n i r.

(** The roots, in ascending order. *)
Definition roots (p : list Z) : list Z :=
  filter (is_root p) (seqZ 0 (Z.of_nat (length p))).

(** The root reached from [j] in at most [n] links, as a function. *)
Fixpoint rootf (n : nat) (p : list Z) (j : Z) : Z :=
  match n with
  | O => j
  | S n' => match p !! Z.to_nat j with Some k => rootf n' p k | None => j end
  end.

(** [parent] has one entry per vertex, every entry is a vertex, and the
    parent links from any vertex end at a root after finitely many steps. *)
Definition forest_inv (n : Z) (p : list Z) : Prop :=
  length p = Z.to_nat n
  ∧ Forall (λ x, 0 ≤ x < n) p
  ∧ ∀ j, 0 ≤ j < n → ∃ r, root_of p j r.

(** ** Graphs as lists of edges *)

(** Edges are undirected: [ed] joins [x] and [y] in either order. *)
Definition joins (ed : Edge) (x y : Z) : Prop :=
  (edge_u ed = x ∧ edge_v ed = y) ∨ (edge_u ed = y ∧ edge_v ed = x).

Definition adj (es : list Edge) (x y : Z) : Prop :=
  ∃ ed, ed ∈ es ∧ joins ed x y.

(** [reach es x y]: a walk along edges of [es], in either direction, leads
    from [x] to [y]. *)
Inductive reach (es : list Edge) : Z → Z → Prop :=
| reach_refl (x : Z) : reach es x x
| reach_step (x y z : Z) : adj es x y → reach es y z → reach es x z.

(** Both ends of every edge are vertices in [0, n). *)
Definition wf_edges (n : Z) (es : list Edge) : Prop :=
  ∀ ed, ed ∈ es → 0 ≤ edge_u ed < n ∧ 0 ≤ edge_v ed < n.

(** One component, which takes at least one vertex. *)
Definition connected (n : Z) (es : list Edge) : Prop :=
  0 < n ∧ ∀ x y, 0 ≤ x < n → 0 ≤ y < n → reach es x y.

(** [trail es x ks y]: the edges at the positions [ks] of [es], taken in
    turn and each in either direction, lead from [x] to [y]. *)
Inductive trail (es : list Edge) : Z → list nat → Z → Prop :=
| trail_nil (x : Z) : trail es x [] x
| trail_cons (x y z : Z) (k : nat) (ks : list nat) (ed : Edge) :
    es !! k = Some ed → joins ed x y → trail es y ks z →
    trail es x (k :: ks) z.

(** A cycle is a closed walk over at least one edge that uses no edge of
    the list twice. *)
Definition has_cycle (es : list Edge) : Prop :=
  ∃ x ks, ks ≠ [] ∧ NoDup ks ∧ trail es x ks x.

(** No cycle. *)
Definition acyclic (es : list Edge) : Prop := ¬ has_cycle es.

(** The same, edge by edge: none closes a cycle with the other edges. *)
Definition all_bridges (es : list Edge) : Prop :=
  ∀ l1 ed l2, es = l1 ++ ed :: l2 → ¬ reach (l1 ++ l2) (edge_u ed) (edge_v ed).

(** Each edge joins two vertices that the edges after it leave apart. *)
Fixpoint forest (es : list Edge) : Prop :=
  match es with
  | [] => True
  | ed :: es' => ¬ reach es' (edge_u ed) (edge_v ed) ∧ forest es'
  end.

(** The sum of the weights. *)
Definition total_weight (es : list Edge) : Z :=
  foldr (λ ed acc, edge_w ed + acc) 0 es.

(** A spanning tree of the vertices [0 .. n-1] made of edges of [es]. *)
Definition spanning_tree (n : Z) (es tree : list Edge) : Prop :=
  tree ⊆ es ∧ connected n tree ∧ acyclic tree.

(** Where position [k] of a list lands once an item is put in at [m]. *)
Definition shift (m k : nat) : nat := if decide (k < m)%nat then k else S k.

(** ** Invariants *)

(** [uf_inv n p acc d]: the list [p] is a forest over the vertices
    [0 .. n-1] of depth at most [d] whose trees are exactly the components
    of the edges [acc]. *)
Record uf_inv (n : Z) (p : list Z) (acc : list Edge) (d : nat) : Prop := {
  ufi_len : Z.of_nat (length p) = n;
  ufi_root : ∀ j, 0 ≤ j < n → ∃ r, root_in p d j r;
  ufi_sound : ∀ j k r, root_of p j r → root_of p k r → reach acc j k;
  ufi_complete : ∀ j k rj rk,
    reach acc j k → root_of p j rj → root_of p k rk → rj = rk;
  ufi_count : Z.of_nat (length (roots p)) + Z.of_nat (length acc) = n;
  ufi_wf : wf_edges n acc
}.

(** The order [sorted] establishes. *)
Definition by_key {A : Type} (key : A → Z) (a b : A) : Prop := key a ≤ key b.

Definition le_weight (w : Z) (ed : Edge) : Prop := edge_w ed ≤ w.

Global Instance le_weight_dec (w : Z) (ed : Edge) : Decision (le_weight w ed).
Proof. unfold le_weight. apply _. Defined.

(** [dominates done tree]: below every weight bound, no forest drawn from
    the edges [done] has more edges than [tree] has. *)
Definition dominates (done tree : list Edge) : Prop :=
  ∀ w es, forest es → es ⊆ done → (∀ ed, ed ∈ es → edge_w ed ≤ w) →
    (length es ≤ length (filter (le_weight w) tree))%nat.

(** The condition of the [while] loop. *)
Definition guard (n : Z) (c : locals) : Prop := e c < n - 1.

(** What holds at the head of the loop over the sorted, well-formed edges
    [L]: the first [i] edges have been looked at, [mst] holds the [e]
    accepted ones, the parent forest mirrors their components, every edge
    looked at has its ends in one component, and [mst] has no cycle and
    dominates the edges looked at. *)
Record loop_inv (n : Z) (L : list Edge) (c : locals) : Prop := {
  li_i : 0 ≤ i c ≤ Z.of_nat (length L);
  li_e : e c = Z.of_nat (length (mst c));
  li_uf : uf_inv n (parent (uf c)) (mst c) (length (mst c));
  li_rank : length (rank (uf c)) = length (parent (uf c));
  li_done : ∀ ed, ed ∈ take (Z.to_nat (i c)) L →
                  reach (mst c) (edge_u ed) (edge_v ed);
  li_sub : mst c ⊆ take (Z.to_nat (i c)) L;
  li_all_bridges : all_bridges (mst c);
  li_dom : dominates (take (Z.to_nat (i c)) L) (mst c)
}.

(** The states of the local variables at the head of the [while] loop. *)
Inductive reachable (fuel : nat) (self : Graph) : locals → Prop :=
| reachable_init : reachable fuel self (c0 (v self))
| reachable_step (c c' : locals) :
    reachable fuel self c → e c < v self - 1 →
    loop_body fuel self c = Ok c' → reachable fuel self c'.

(** The subscripts a list of [n] items accepts. *)
Definition in_bounds (n x : Z) : Prop := - n ≤ x < n.

(** An edge with an endpoint that no subscript rule maps into the lists. *)
Definition invalid (n : Z) (ed : Edge) : Prop :=
  ¬ in_bounds n (edge_u ed) ∨ ¬ in_bounds n (edge_v ed).

(** ** Vocabulary of the further properties *)

(** Two vertices in one tree of the parent forest. *)
Definition same_root (p : list Z) (j k : Z) : Prop :=
  ∃ r, root_of p j r ∧ root_of p k r.

(** What holds at the head of the [while] loop whatever the edges of
    [self.graph] are: [i] edges have been read, [mst] holds [e] of them in
    the order read, none a self-loop, and the parent forest is no deeper
    than the number of accepted edges. *)
Record run_inv (self : Graph) (c : locals) : Prop := {
  ri_i : 0 ≤ i c ≤ Z.of_nat (length (graph self));
  ri_e : e c = Z.of_nat (length (mst c));
  ri_e_le : e c ≤ Z.max 0 (v self - 1);
  ri_sub : mst c `sublist_of` take (Z.to_nat (i c)) (graph self);
  ri_loops : ∀ ed, ed ∈ mst c → edge_u ed ≠ edge_v ed;
  ri_forest : forest_inv (v self) (parent (uf c));
  ri_rank : length (rank (uf c)) = length (parent (uf c));
  ri_depth : ∀ j, 0 ≤ j < v self →
               ∃ r, root_in (parent (uf c)) (length (mst c)) j r
}.

(** The locals after three passes of the loop over the chain graph. *)
Definition chain_state : locals :=
  Locals (Store [0; 0; 0; 2; 4] [2; 0; 1; 0; 0]) 3 3
    [mkEdge 0 1 1; mkEdge 2 3 2; mkEdge 1 3 3].

(** [rank[j]], read as 0 where the list has no such entry. *)
Definition rank_of (rk : list Z) (j : Z) : Z := default 0 (rk !! Z.to_nat j).

(** Ranks grow strictly along parent links. *)
Definition rank_ordered (p rk : list Z) : Prop :=
  ∀ j k, 0 ≤ j → 0 ≤ k → p !! Z.to_nat j = Some k → k ≠ j →
         rank_of rk j < rank_of rk k.

(** Two to the rank, summed over a list of vertices. *)
Definition rank_mass (rk : list Z) (l : list Z) : Z :=
  foldr (λ r acc, 2 ^ rank_of rk r + acc) 0 l.

(** What union by rank keeps: ranks are not negative, they grow along
    parent links, and the roots together carry a mass of at most one per
    vertex. *)
Record rank_inv (s : store) : Prop := {
  rki_nonneg : Forall (λ x, 0 ≤ x) (rank s);
  rki_ordered : rank_ordered (parent s) (rank s);
  rki_mass : rank_mass (rank s) (roots (parent s))
             ≤ Z.of_nat (length (parent s))
}.

(** * Properties *)

(** ** Subscripts *)

Lemma py_index_in_range (len : nat) (i : Z) :
  0 ≤ i < Z.of_nat len → py_index len i = Some (Z.to_nat i).
Proof.
  intros H. unfold py_index.
  destruct (Z.ltb_spec i 0); [lia|].
  destruct (Z.leb_spec 0 i); [|lia].
  destruct (Z.ltb_spec i (Z.of_nat len)); [done|lia].
Qed.

Lemma py_index_wrap (len : nat) (i : Z) :
  - Z.of_nat len ≤ i < 0 → py_index len i = Some (Z.to_nat (i + Z.of_nat len)).
Proof.
  intros H. unfold py_index.
  destruct (Z.ltb_spec i 0); [|lia].
  destruct (Z.leb_spec 0 (i + Z.of_nat len)); [|lia].
  destruct (Z.ltb_spec (i + Z.of_nat len) (Z.of_nat len)); [done|lia].
Qed.

Lemma py_index_out (len : nat) (i : Z) :
  i < - Z.of_nat len ∨ Z.of_nat len ≤ i → py_index len i = None.
Proof.
  intros H. unfold py_index.
  destruct (Z.ltb_spec i 0).
  - destruct (Z.leb_spec 0 (i + Z.of_nat len)); [lia|done].
  - destruct (Z.leb_spec 0 i); [|lia].
    destruct (Z.ltb_spec i (Z.of_nat len)); [lia|done].
Qed.

Lemma py_index_lt (len : nat) (i : Z) (n : nat) :
  py_index len i = Some n → (n < len)%nat.
Proof.
  unfold py_index. intros H.
  destruct (0 <=? _) eqn:H0; [|done].
  destruct (_ <? Z.of_nat len) eqn:H1; [|done].
  simpl in H. inversion H; subst. lia.
Qed.

Lemma getitem_lookup {A : Type} (l : list A) (i : Z) (x : A) :
  0 ≤ i → l !! Z.to_nat i = Some x → getitem l i = Ok x.
Proof.
  intros Hi Hl. unfold getitem.
  rewrite py_index_in_range.
  - by rewrite Hl.
  - apply lookup_lt_Some in Hl. lia.
Qed.

Lemma getitem_out {A : Type} (l : list A) (i : Z) :
  i < - Z.of_nat (length l) ∨ Z.of_nat (length l) ≤ i → getitem l i = IndexError.
Proof. intros H. unfold getitem. by rewrite py_index_out. Qed.

Lemma getitem_never_diverges {A : Type} (l : list A) (i : Z) :
  getitem l i ≠ OutOfFuel.
Proof. unfold getitem. repeat case_match; done. Qed.

Lemma setitem_in_range {A : Type} (l : list A) (i : Z) (x : A) :
  0 ≤ i < Z.of_nat (length l) → setitem l i x = Ok (<[Z.to_nat i := x]> l).
Proof. intros H. unfold setitem. by rewrite py_index_in_range. Qed.

(** ** Following parent links *)

Lemma root_in_mono (p : list Z) (n m : nat) (i r : Z) :
  (n ≤ m)%nat → root_in p n i r → root_in p m i r.
Proof.
  intros Hnm H. revert m Hnm.
  induction H as [n r Hr | n i j r Hi Hl Hne H IH]; intros m Hnm.
  - by constructor.
  - destruct m as [|m]; [lia|].
    eapply root_in_up; eauto. apply IH. lia.
Qed.

Lemma root_in_is_root (p : list Z) (n : nat) (i r : Z) :
  root_in p n i r → is_root p r.
Proof. induction 1; auto. Qed.

Lemma root_in_range (p : list Z) (n : nat) (i r : Z) :
  root_in p n i r → 0 ≤ i < Z.of_nat (length p).
Proof.
  intros H. assert (∃ j, 0 ≤ i ∧ p !! Z.to_nat i = Some j) as (j & Hi & Hl).
  { destruct H as [n r [H0 H1] | n i j r Hi Hl _ _]; eauto. }
  apply lookup_lt_Some in Hl. lia.
Qed.

Lemma root_in_det (p : list Z) (n m : nat) (i r r' : Z) :
  root_in p n i r → root_in p m i r' → r = r'.
Proof.
  intros H. revert m r'.
  induction H as [n r [Hr0 Hr] | n i j r Hi Hl Hne H IH]; intros m r' H'.
  - inversion H' as [? ? _ | ? ? j' ? _ Hl' Hne' _]; subst; [done|].
    rewrite Hr in Hl'. congruence.
  - inversion H' as [? ? [_ Hr'] | ? ? j' ? _ Hl' _ Hj']; subst.
    + rewrite Hl in Hr'. congruence.
    + rewrite Hl in Hl'. inversion Hl'; subst. eauto.
Qed.

Lemma root_of_det (p : list Z) (i r r' : Z) :
  root_of p i r → root_of p i r' → r = r'.
Proof. intros [n H] [m H']. eapply root_in_det; eauto. Qed.

Lemma root_of_root (p : list Z) (r : Z) : is_root p r → root_of p r r.
Proof. intros H. exists 0%nat. by constructor. Qed.

(** ** [find] reads and never writes *)

Lemma M_bind_ok {A B : Type} (m : M A) (f : A → M B) (s s' : store) (a : A) :
  m s = Ok (a, s') → (m ≫= f) s = f a s'.
Proof. intros H. unfold mbind, M_bind. by rewrite H. Qed.

Lemma parent_at_lookup (s : store) (i x : Z) :
  0 ≤ i → parent s !! Z.to_nat i = Some x → parent_at i s = Ok (x, s).
Proof. intros Hi Hl. unfold parent_at. by rewrite (getitem_lookup _ _ _ Hi Hl). Qed.

Lemma rank_at_lookup (s : store) (i x : Z) :
  0 ≤ i → rank s !! Z.to_nat i = Some x → rank_at i s = Ok (x, s).
Proof. intros Hi Hl. unfold rank_at. by rewrite (getitem_lookup _ _ _ Hi Hl). Qed.

Lemma find_root_in (fuel n : nat) (s : store) (i r : Z) :
  root_in (parent s) n i r → (n < fuel)%nat → find fuel i s = Ok (r, s).
Proof.
  intros H. revert fuel.
  induction H as [n r [Hr0 Hr] | n i j r Hi Hl Hne H IH]; intros fuel Hf.
  - destruct fuel as [|fuel]; [lia|]. simpl.
    rewrite (M_bind_ok _ _ _ _ _ (parent_at_lookup _ _ _ Hr0 Hr)).
    by rewrite Z.eqb_refl.
  - destruct fuel as [|fuel]; [lia|]. simpl.
    rewrite (M_bind_ok _ _ _ _ _ (parent_at_lookup _ _ _ Hi Hl)).
    destruct (Z.eqb_spec j i); [done|].
    rewrite (M_bind_ok _ _ _ _ _ (parent_at_lookup _ _ _ Hi Hl)).
    apply IH. lia.
Qed.

Lemma parent_at_frame (s s' : store) (i x : Z) :
  parent_at i s = Ok (x, s') → s' = s.
Proof.
  unfold parent_at. destruct (getitem (parent s) i); simpl; congruence.
Qed.

Lemma find_frame (fuel : nat) (s s' : store) (i r : Z) :
  find fuel i s = Ok (r, s') → s' = s.
Proof.
  revert i. induction fuel as [|fuel IH]; intros i; simpl; [done|].
  unfold mbind at 1. unfold M_bind.
  destruct (parent_at i s) as [[x s1]| |] eqn:E1; try done.
  apply parent_at_frame in E1. subst s1.
  destruct (x =? i).
  - unfold mret, M_ret. congruence.
  - unfold mbind, M_bind.
    destruct (parent_at i s) as [[x' s1]| |] eqn:E2; try done.
    apply parent_at_frame in E2. subst s1. apply IH.
Qed.

(** ** Linking one root under another *)

Section link.
Context (p : list Z) (x y : Z).
Hypothesis Hx : is_root p x.
Hypothesis Hxy : x ≠ y.

Lemma link_lookup_eq : <[Z.to_nat x := y]> p !! Z.to_nat x = Some y.
Proof.
  destruct Hx as [_ Hl]. apply lookup_lt_Some in Hl.
  by apply list_lookup_insert_eq.
Qed.

Lemma link_lookup_ne (j : Z) :
  0 ≤ j → j ≠ x → <[Z.to_nat x := y]> p !! Z.to_nat j = p !! Z.to_nat j.
Proof.
  intros Hj Hne. destruct Hx as [Hx0 _].
  apply list_lookup_insert_ne. lia.
Qed.

Lemma link_is_root (r : Z) :
  is_root (<[Z.to_nat x := y]> p) r ↔ is_root p r ∧ r ≠ x.
Proof.
  unfold is_root. split.
  - intros [Hr0 Hr]. destruct (decide (r = x)) as [->|Hne].
    + rewrite link_lookup_eq in Hr. congruence.
    + rewrite link_lookup_ne in Hr by done. done.
  - intros [[Hr0 Hr] Hne]. by rewrite link_lookup_ne.
Qed.

Lemma link_root_in_other (n : nat) (j r : Z) :
  root_in p n j r → r ≠ x → root_in (<[Z.to_nat x := y]> p) n j r.
Proof.
  induction 1 as [n r Hr | n j k r Hj Hl Hne H IH]; intros Hrx.
  - constructor. by apply link_is_root.
  - eapply root_in_up; eauto.
    rewrite link_lookup_ne; [done..|].
    intros ->. destruct Hx as [_ Hl']. congruence.
Qed.

Lemma link_root_in_moved (n : nat) (j : Z) :
  is_root p y → root_in p n j x → root_in (<[Z.to_nat x := y]> p) (S n) j y.
Proof.
  intros Hy H.
  assert (∀ r, root_in p n j r → r = x →
               root_in (<[Z.to_nat x := y]> p) (S n) j y) as Hgen; [|eauto].
  clear H. intros r H.
  induction H as [n r Hr | n j k r Hj Hl Hne H IH]; intros Er.
  - rewrite Er. eapply root_in_up; [by destruct Hx|apply link_lookup_eq|done|].
    constructor. apply link_is_root. auto.
  - eapply root_in_up; eauto.
    rewrite link_lookup_ne; [done..|].
    intros Ejx. destruct Hx as [_ Hl']. rewrite Ejx in Hl. congruence.
Qed.
End link.

(** ** Counting the roots *)

Lemma elem_of_roots (p : list Z) (r : Z) : r ∈ roots p ↔ is_root p r.
Proof.
  unfold roots. rewrite list_elem_of_filter, elem_of_seqZ. split; [tauto|].
  intros Hr. split; [done|]. destruct Hr as [Hr0 Hr].
  apply lookup_lt_Some in Hr. lia.
Qed.

Lemma NoDup_roots (p : list Z) : NoDup (roots p).
Proof. apply NoDup_filter, NoDup_seqZ. Qed.

Lemma filter_link_length (p : list Z) (x y : Z) (l : list Z) :
  is_root p x → x ≠ y → NoDup l →
  (length (filter (is_root (<[Z.to_nat x := y]> p)) l)
     + (if decide (x ∈ l) then 1 else 0)
   = length (filter (is_root p) l))%nat.
Proof.
  intros Hx Hxy H. induction H as [|a l Ha Hnd IH]; [done|].
  rewrite !filter_cons.
  pose proof (link_is_root p x y Hx Hxy a) as Hiff.
  destruct (decide (a = x)) as [->|Hne].
  - rewrite (decide_True (P := x ∈ x :: l)) by apply list_elem_of_here.
    rewrite (decide_False (P := x ∈ l)) in IH by done.
    rewrite (decide_False (P := is_root _ x)) by tauto.
    rewrite (decide_True (P := is_root p x)) by done.
    simpl. lia.
  - assert (x ∈ a :: l ↔ x ∈ l) as Hin.
    { rewrite elem_of_cons. intuition congruence. }
    destruct (decide (x ∈ l)) as [Hl|Hl].
    + rewrite (decide_True (P := x ∈ a :: l)) by tauto.
      destruct (decide (is_root p a)) as [Hr|Hr].
      * rewrite (decide_True (P := is_root _ a)) by tauto. simpl. lia.
      * rewrite (decide_False (P := is_root _ a)) by tauto. lia.
    + rewrite (decide_False (P := x ∈ a :: l)) by tauto.
      destruct (decide (is_root p a)) as [Hr|Hr].
      * rewrite (decide_True (P := is_root _ a)) by tauto. simpl. lia.
      * rewrite (decide_False (P := is_root _ a)) by tauto. lia.
Qed.

Lemma roots_link (p : list Z) (x y : Z) :
  is_root p x → x ≠ y →
  (length (roots (<[Z.to_nat x := y]> p)) + 1 = length (roots p))%nat.
Proof.
  intros Hx Hxy. unfold roots. rewrite length_insert.
  rewrite <- (filter_link_length p x y _ Hx Hxy (NoDup_seqZ _ _)).
  rewrite decide_True; [done|].
  apply elem_of_seqZ. destruct Hx as [Hx0 Hl].
  apply lookup_lt_Some in Hl. lia.
Qed.

Lemma rootf_root (n : nat) (p : list Z) (r : Z) : is_root p r → rootf n p r = r.
Proof. intros [_ Hr]. induction n as [|n IH]; simpl; [done|]. by rewrite Hr. Qed.

Lemma rootf_root_in (n : nat) (p : list Z) (j r : Z) :
  root_in p n j r → rootf n p j = r.
Proof.
  induction 1 as [n r Hr | n j k r Hj Hl Hne H IH].
  - by apply rootf_root.
  - simpl. by rewrite Hl.
Qed.

(** A partition whose roots are all hit by the roots of another one has no
    more classes than the other. *)
Lemma roots_length_le (p q : list Z) (f : Z → Z) :
  (∀ r, is_root q r → ∃ s, is_root p s ∧ f s = r) →
  (length (roots q) ≤ length (roots p))%nat.
Proof.
  intros Hsurj.
  rewrite <- (length_fmap f (roots p)).
  apply submseteq_length, NoDup_submseteq; [apply NoDup_roots|].
  intros r Hr. apply elem_of_roots, Hsurj in Hr as (s & Hs & <-).
  apply list_elem_of_fmap. exists s. split; [done|]. by apply elem_of_roots.
Qed.

(** ** Connectivity through a list of edges *)

Lemma joins_sym (ed : Edge) (x y : Z) : joins ed x y → joins ed y x.
Proof. unfold joins. tauto. Qed.

Lemma adj_sym (es : list Edge) (x y : Z) : adj es x y → adj es y x.
Proof. intros (ed & Hin & Hj). exists ed. auto using joins_sym. Qed.

Lemma reach_trans (es : list Edge) (x y z : Z) :
  reach es x y → reach es y z → reach es x z.
Proof. induction 1; eauto using reach_step. Qed.

Lemma reach_adj (es : list Edge) (x y : Z) : adj es x y → reach es x y.
Proof. intros H. eapply reach_step; eauto using reach_refl. Qed.

Lemma reach_sym (es : list Edge) (x y : Z) : reach es x y → reach es y x.
Proof.
  induction 1 as [x | x y z Ha H IH]; [constructor|].
  eapply reach_trans; [exact IH|]. by apply reach_adj, adj_sym.
Qed.

Lemma reach_edge (es : list Edge) (ed : Edge) :
  ed ∈ es → reach es (edge_u ed) (edge_v ed).
Proof. intros H. apply reach_adj. exists ed. split; [done|]. by left. Qed.

(** Walks stay inside any equivalence that relates the ends of every edge. *)
Lemma reach_sub (es es' : list Edge) (x y : Z) :
  (∀ ed, ed ∈ es → reach es' (edge_u ed) (edge_v ed)) →
  reach es x y → reach es' x y.
Proof.
  intros Hsub. induction 1 as [x | x y z (ed & Hin & Hj) H IH]; [constructor|].
  eapply reach_trans; [|exact IH].
  destruct Hj as [[<- <-]|[<- <-]]; [|apply reach_sym]; auto.
Qed.

Lemma reach_mono (es es' : list Edge) (x y : Z) :
  es ⊆ es' → reach es x y → reach es' x y.
Proof. intros Hsub. apply reach_sub. intros ed Hin. apply reach_edge. auto. Qed.

Lemma reach_range (n : Z) (es : list Edge) (x y : Z) :
  wf_edges n es → reach es x y → 0 ≤ x < n → 0 ≤ y < n.
Proof.
  intros Hwf. induction 1 as [x | x y z (ed & Hin & Hj) H IH]; [done|].
  intros Hx. apply IH. destruct (Hwf ed Hin) as [Hu Hv].
  destruct Hj as [[<- <-]|[<- <-]]; done.
Qed.

(** A walk that may use one more edge either avoids it or crosses it. *)
Lemma reach_cons_inv (es : list Edge) (ed : Edge) (x y : Z) :
  reach (ed :: es) x y →
  reach es x y
  ∨ (reach es x (edge_u ed) ∧ reach es (edge_v ed) y)
  ∨ (reach es x (edge_v ed) ∧ reach es (edge_u ed) y).
Proof.
  induction 1 as [x | x y z (ed' & Hin & Hj) H IH]; [left; constructor|].
  apply elem_of_cons in Hin as [->|Hin].
  - destruct Hj as [[<- <-]|[<- <-]].
    + destruct IH as [IH|[[IH1 IH2]|[IH1 IH2]]].
      * right. left. split; [constructor|done].
      * right. left. split; [constructor|done].
      * left. done.
    + destruct IH as [IH|[[IH1 IH2]|[IH1 IH2]]].
      * right. right. split; [constructor|done].
      * left. done.
      * right. right. split; [constructor|done].
  - assert (reach es x y) as Hxy by (apply reach_adj; exists ed'; auto).
    destruct IH as [IH|[[IH1 IH2]|[IH1 IH2]]].
    + left. eapply reach_trans; eauto.
    + right. left. split; [eapply reach_trans; eauto|done].
    + right. right. split; [eapply reach_trans; eauto|done].
Qed.

Lemma reach_cons_intro (es : list Edge) (ed : Edge) (x y : Z) :
  reach es x y
  ∨ (reach es x (edge_u ed) ∧ reach es (edge_v ed) y)
  ∨ (reach es x (edge_v ed) ∧ reach es (edge_u ed) y) →
  reach (ed :: es) x y.
Proof.
  assert (es ⊆ ed :: es) as Hsub by (intros ? ?; by apply list_elem_of_further).
  assert (reach (ed :: es) (edge_u ed) (edge_v ed)) as Hed
    by apply reach_edge, list_elem_of_here.
  intros [H|[[H1 H2]|[H1 H2]]].
  - by eapply reach_mono.
  - eapply reach_trans; [eapply reach_mono; eauto|].
    eapply reach_trans; [exact Hed|]. by eapply reach_mono.
  - eapply reach_trans; [eapply reach_mono; eauto|].
    eapply reach_trans; [apply reach_sym; exact Hed|]. by eapply reach_mono.
Qed.

(** ** The forest of parent links as a partition *)

Lemma is_root_range (p : list Z) (r : Z) :
  is_root p r → 0 ≤ r < Z.of_nat (length p).
Proof. intros [H0 Hl]. apply lookup_lt_Some in Hl. lia. Qed.

Lemma seqZ_is_root (n r : Z) : 0 ≤ r < n → is_root (seqZ 0 n) r.
Proof.
  intros H. split; [lia|]. rewrite lookup_seqZ_lt by lia. f_equal. lia.
Qed.

Lemma roots_seqZ (n : Z) : roots (seqZ 0 n) = seqZ 0 n.
Proof.
  unfold roots. rewrite length_seqZ.
  assert (seqZ 0 (Z.of_nat (Z.to_nat n)) = seqZ 0 n) as ->.
  { destruct (Z.le_gt_cases 0 n); [by rewrite Z2Nat.id|].
    rewrite !seqZ_nil; [done|lia..]. }
  assert (∀ l : list Z, (∀ r, r ∈ l → 0 ≤ r < n) →
            filter (is_root (seqZ 0 n)) l = l) as Hall.
  { intros l. induction l as [|a l IH]; intros Hl; [done|].
    rewrite filter_cons, decide_True.
    - f_equal. apply IH. intros r Hr. apply Hl. by apply list_elem_of_further.
    - apply seqZ_is_root, Hl, list_elem_of_here. }
  apply Hall. intros r Hr. apply elem_of_seqZ in Hr. lia.
Qed.

Lemma reach_nil (x y : Z) : reach [] x y → x = y.
Proof.
  inversion 1 as [|? ? ? (ed & Hin & _)]; [done|]. by apply elem_of_nil in Hin.
Qed.

Lemma uf_inv_init (n : Z) : 0 ≤ n → uf_inv n (seqZ 0 n) [] 0.
Proof.
  intros Hn. split.
  - rewrite length_seqZ. lia.
  - intros j Hj. exists j. constructor. by apply seqZ_is_root.
  - intros j k r Hj Hk.
    assert (0 ≤ j < n) as Hj'.
    { destruct Hj as [m Hj]. apply root_in_range in Hj.
      rewrite length_seqZ in Hj. lia. }
    assert (0 ≤ k < n) as Hk'.
    { destruct Hk as [m Hk]. apply root_in_range in Hk.
      rewrite length_seqZ in Hk. lia. }
    rewrite (root_of_det _ _ _ _ (root_of_root _ _ (seqZ_is_root n j Hj')) Hj).
    rewrite (root_of_det _ _ _ _ (root_of_root _ _ (seqZ_is_root n k Hk')) Hk).
    constructor.
  - intros j k rj rk Hr Hj Hk. apply reach_nil in Hr as <-.
    eapply root_of_det; eauto.
  - rewrite roots_seqZ, length_seqZ. simpl. lia.
  - intros ed Hin. by apply elem_of_nil in Hin.
Qed.

(** Where a vertex ends up once the root [x] hangs under [y]. *)
Lemma link_root_of (p : list Z) (x y j r : Z) :
  is_root p x → is_root p y → x ≠ y → root_of p j r →
  root_of (<[Z.to_nat x := y]> p) j (if decide (r = x) then y else r).
Proof.
  intros Hx Hy Hxy [m H]. destruct (decide (r = x)) as [->|Hne].
  - exists (S m). by apply link_root_in_moved.
  - exists m. by apply link_root_in_other.
Qed.

Lemma uf_inv_link (n : Z) (p : list Z) (acc acc' : list Edge) (d : nat)
    (a b x y : Z) :
  uf_inv n p acc d →
  root_of p a x → root_of p b y → x ≠ y →
  wf_edges n acc' → length acc' = S (length acc) →
  (∀ j k, reach acc' j k ↔
     reach acc j k ∨ (reach acc j a ∧ reach acc b k)
     ∨ (reach acc j b ∧ reach acc a k)) →
  uf_inv n (<[Z.to_nat x := y]> p) acc' (S d).
Proof.
  intros Hinv Ha Hb Hxy Hwf Hlen Hreach.
  assert (is_root p x) as Hx by (destruct Ha; eapply root_in_is_root; eauto).
  assert (is_root p y) as Hy by (destruct Hb; eapply root_in_is_root; eauto).
  assert (∀ j r', root_of (<[Z.to_nat x := y]> p) j r' →
            ∃ r, root_of p j r ∧ r' = if decide (r = x) then y else r) as Hold.
  { intros j r' Hj.
    assert (0 ≤ j < n) as Hjn.
    { destruct Hj as [m Hj]. apply root_in_range in Hj.
      rewrite length_insert, (ufi_len _ _ _ _ Hinv) in Hj. done. }
    destruct (ufi_root _ _ _ _ Hinv j Hjn) as [r Hr].
    exists r. split; [by exists d|].
    eapply root_of_det; [exact Hj|].
    apply link_root_of; try done. by exists d. }
  split.
  - rewrite length_insert. apply Hinv.
  - intros j Hj. destruct (ufi_root _ _ _ _ Hinv j Hj) as [r Hr].
    destruct (decide (r = x)) as [->|Hne].
    + exists y. by apply link_root_in_moved.
    + exists r. eapply root_in_mono; [|by apply link_root_in_other]. lia.
  - intros j k r' Hj Hk.
    destruct (Hold _ _ Hj) as (rj & Hrj & Ej).
    destruct (Hold _ _ Hk) as (rk & Hrk & Ek).
    apply Hreach.
    destruct (decide (rj = x)) as [->|Hjx], (decide (rk = x)) as [->|Hkx].
    + left. eapply ufi_sound; eauto.
    + right. left. subst r'. subst rk. split; eapply ufi_sound; eauto.
    + right. right. subst r'. subst rj. split; eapply ufi_sound; eauto.
    + left. subst r'. subst rk. eapply ufi_sound; eauto.
  - intros j k rj' rk' Hr Hj Hk.
    destruct (Hold _ _ Hj) as (rj & Hrj & ->).
    destruct (Hold _ _ Hk) as (rk & Hrk & ->).
    apply Hreach in Hr as [Hr|[[Hr1 Hr2]|[Hr1 Hr2]]].
    + by rewrite (ufi_complete _ _ _ _ Hinv _ _ _ _ Hr Hrj Hrk).
    + assert (rj = x) as -> by exact (ufi_complete _ _ _ _ Hinv _ _ _ _ Hr1 Hrj Ha).
      assert (y = rk) as <- by exact (ufi_complete _ _ _ _ Hinv _ _ _ _ Hr2 Hb Hrk).
      rewrite decide_True by done. by rewrite decide_False by done.
    + assert (rj = y) as -> by exact (ufi_complete _ _ _ _ Hinv _ _ _ _ Hr1 Hrj Hb).
      assert (x = rk) as <- by exact (ufi_complete _ _ _ _ Hinv _ _ _ _ Hr2 Ha Hrk).
      rewrite decide_False by done. by rewrite decide_True by done.
  - pose proof (roots_link p x y Hx Hxy) as Hroots.
    pose proof (ufi_count _ _ _ _ Hinv) as Hcount.
    rewrite Hlen. lia.
  - done.
Qed.

(** ** Forests of edges *)

Lemma reach_middle (es1 es2 : list Edge) (ed : Edge) (x y : Z) :
  reach (es1 ++ ed :: es2) x y ↔ reach (ed :: es1 ++ es2) x y.
Proof.
  split; apply reach_mono; intros f; rewrite !elem_of_app, !elem_of_cons, ?elem_of_app; tauto.
Qed.

Lemma all_bridges_forest (es : list Edge) : all_bridges es → forest es.
Proof.
  induction es as [|ed es IH]; intros Hac; [done|]. split.
  - apply (Hac [] ed es eq_refl).
  - apply IH. intros l1 f l2 -> Hr.
    apply (Hac (ed :: l1) f l2 eq_refl). simpl.
    eapply reach_mono; [|exact Hr]. intros ? ?. by apply list_elem_of_further.
Qed.

Lemma all_bridges_snoc (es : list Edge) (ed : Edge) :
  all_bridges es → ¬ reach es (edge_u ed) (edge_v ed) → all_bridges (es ++ [ed]).
Proof.
  intros Hac Hnew l1 f l2 Heq Hr.
  destruct l2 as [|z l2 _] using rev_ind.
  - apply app_inj_tail in Heq as [-> ->]. by rewrite app_nil_r in Hr.
  - rewrite app_comm_cons, app_assoc in Heq.
    apply app_inj_tail in Heq as [-> <-].
    assert (reach (ed :: l1 ++ l2) (edge_u f) (edge_v f)) as Hr'.
    { eapply reach_mono; [|exact Hr].
      intros g. rewrite !elem_of_app, !elem_of_cons, ?elem_of_app, elem_of_nil. tauto. }
    assert (l1 ++ l2 ⊆ l1 ++ f :: l2) as Hsub.
    { intros g. rewrite !elem_of_app, !elem_of_cons. tauto. }
    assert (reach (l1 ++ f :: l2) (edge_u f) (edge_v f)) as Hf.
    { apply reach_edge. rewrite elem_of_app, elem_of_cons. tauto. }
    apply reach_cons_inv in Hr' as [H|[[H1 H2]|[H1 H2]]].
    + by apply (Hac l1 f l2 eq_refl).
    + apply Hnew.
      eapply reach_trans; [apply reach_sym; eapply reach_mono; eauto|].
      eapply reach_trans; [exact Hf|].
      apply reach_sym; eapply reach_mono; eauto.
    + apply Hnew.
      eapply reach_trans; [eapply reach_mono; eauto|].
      eapply reach_trans; [apply reach_sym; exact Hf|].
      eapply reach_mono; eauto.
Qed.

Lemma forest_filter (P : Edge → Prop) `{!∀ ed, Decision (P ed)} (es : list Edge) :
  forest es → forest (filter P es).
Proof.
  induction es as [|ed es IH]; [done|]. intros [Hnew Hf].
  rewrite filter_cons. destruct (decide (P ed)); [|auto].
  split; [|auto]. intros Hr. apply Hnew.
  eapply reach_mono; [|exact Hr]. apply list_subseteq_filter.
Qed.

Lemma wf_edges_cons (n : Z) (ed : Edge) (es : list Edge) :
  wf_edges n (ed :: es) ↔
  (0 ≤ edge_u ed < n ∧ 0 ≤ edge_v ed < n) ∧ wf_edges n es.
Proof.
  unfold wf_edges. split.
  - intros H. split; [apply H, list_elem_of_here|].
    intros f Hf. by apply H, list_elem_of_further.
  - intros [Hed H] f Hf. apply elem_of_cons in Hf as [->|Hf]; auto.
Qed.

Lemma wf_edges_sub (n : Z) (es es' : list Edge) :
  es ⊆ es' → wf_edges n es' → wf_edges n es.
Proof. intros Hsub H ed Hin. auto. Qed.

(** Every forest over [0 .. n-1] is the component structure of some forest
    of parent links. *)
Lemma forest_partition (n : Z) (es : list Edge) :
  0 ≤ n → wf_edges n es → forest es → ∃ p d, uf_inv n p es d.
Proof.
  intros Hn. induction es as [|ed es IH]; intros Hwf Hf.
  - exists (seqZ 0 n), 0%nat. by apply uf_inv_init.
  - apply wf_edges_cons in Hwf as [[Hu Hv] Hwf]. destruct Hf as [Hnew Hf].
    destruct (IH Hwf Hf) as (p & d & Hinv).
    destruct (ufi_root _ _ _ _ Hinv _ Hu) as [x Hx].
    destruct (ufi_root _ _ _ _ Hinv _ Hv) as [y Hy].
    exists (<[Z.to_nat x := y]> p), (S d).
    eapply (uf_inv_link n p es (ed :: es) d (edge_u ed) (edge_v ed) x y);
      eauto; try (by exists d).
    + intros ->. apply Hnew. eapply ufi_sound; eauto; by exists d.
    + by apply wf_edges_cons.
    + intros j k. split; [apply reach_cons_inv|apply reach_cons_intro].
Qed.

(** A forest whose edges stay inside the classes of a partition has no more
    edges than the partition has merges. *)
Lemma forest_bound (n : Z) (p : list Z) (acc es : list Edge) (d : nat) :
  uf_inv n p acc d → wf_edges n es → forest es →
  (∀ ed, ed ∈ es → reach acc (edge_u ed) (edge_v ed)) →
  (length es ≤ length acc)%nat.
Proof.
  intros Hinv Hwf Hf Hsub.
  assert (0 ≤ n) as Hn by (rewrite <- (ufi_len _ _ _ _ Hinv); lia).
  destruct (forest_partition n es Hn Hwf Hf) as (q & dq & Hq).
  assert (length (roots p) ≤ length (roots q))%nat as Hle.
  { apply (roots_length_le q p (rootf d p)). intros r Hr.
    assert (0 ≤ r < n) as Hrn.
    { apply is_root_range in Hr. by rewrite (ufi_len _ _ _ _ Hinv) in Hr. }
    destruct (ufi_root _ _ _ _ Hq r Hrn) as [s Hs].
    exists s. split; [by eapply root_in_is_root|].
    assert (0 ≤ s < n) as Hsn.
    { apply root_in_is_root, is_root_range in Hs.
      by rewrite (ufi_len _ _ _ _ Hq) in Hs. }
    destruct (ufi_root _ _ _ _ Hinv s Hsn) as [t Ht].
    rewrite (rootf_root_in _ _ _ _ Ht).
    eapply (ufi_complete _ _ _ _ Hinv s r); [|by exists d|by apply root_of_root].
    apply reach_sym. eapply reach_sub; [exact Hsub|].
    eapply (ufi_sound _ _ _ _ Hq); [by exists dq|].
    apply root_of_root. by eapply root_in_is_root. }
  pose proof (ufi_count _ _ _ _ Hinv). pose proof (ufi_count _ _ _ _ Hq). lia.
Qed.

(** With at least one vertex there is at least one root. *)
Lemma uf_inv_edges_le (n : Z) (p : list Z) (acc : list Edge) (d : nat) :
  uf_inv n p acc d → 0 < n → Z.of_nat (length acc) ≤ n - 1.
Proof.
  intros Hinv Hn.
  destruct (ufi_root _ _ _ _ Hinv 0 ltac:(lia)) as [r Hr].
  apply root_in_is_root, elem_of_roots in Hr.
  pose proof (ufi_count _ _ _ _ Hinv).
  destruct (roots p); [by apply elem_of_nil in Hr|]. simpl in *. lia.
Qed.

(** [n - 1] merges leave one class: the accepted edges connect everything. *)
Lemma uf_inv_spanning (n : Z) (p : list Z) (acc : list Edge) (d : nat) :
  uf_inv n p acc d → 0 < n → Z.of_nat (length acc) = n - 1 → connected n acc.
Proof.
  intros Hinv Hn Hlen. split; [done|]. intros x y Hx Hy.
  pose proof (ufi_count _ _ _ _ Hinv) as Hcount.
  destruct (roots p) as [|r0 [|r1 l]] eqn:E; simpl in Hcount; try lia.
  assert (∀ r, is_root p r → r = r0) as Hone.
  { intros r Hr. apply elem_of_roots in Hr. rewrite E in Hr.
    by apply list_elem_of_singleton in Hr. }
  destruct (ufi_root _ _ _ _ Hinv x Hx) as [rx Hrx].
  destruct (ufi_root _ _ _ _ Hinv y Hy) as [ry Hry].
  pose proof (Hone _ (root_in_is_root _ _ _ _ Hrx)) as ->.
  pose proof (Hone _ (root_in_is_root _ _ _ _ Hry)) as ->.
  eapply ufi_sound; eauto; by exists d.
Qed.

(** Conversely, edges that connect everything leave a single class. *)
Lemma uf_inv_connected (n : Z) (p : list Z) (acc : list Edge) (d : nat) :
  uf_inv n p acc d → connected n acc → Z.of_nat (length acc) = n - 1.
Proof.
  intros Hinv [Hn Hconn].
  pose proof (uf_inv_edges_le _ _ _ _ Hinv Hn) as Hle.
  pose proof (ufi_count _ _ _ _ Hinv) as Hcount.
  pose proof (NoDup_roots p) as Hnd.
  destruct (roots p) as [|r0 [|r1 l]] eqn:E; simpl in Hcount; try lia.
  exfalso.
  assert (is_root p r0) as H0 by (apply elem_of_roots; rewrite E; apply list_elem_of_here).
  assert (is_root p r1) as H1.
  { apply elem_of_roots. rewrite E. apply list_elem_of_further, list_elem_of_here. }
  assert (r0 = r1) as ->.
  { eapply (ufi_complete _ _ _ _ Hinv r0 r1); try by apply root_of_root.
    apply Hconn.
    - apply is_root_range in H0. by rewrite (ufi_len _ _ _ _ Hinv) in H0.
    - apply is_root_range in H1. by rewrite (ufi_len _ _ _ _ Hinv) in H1. }
  apply NoDup_cons in Hnd as [Hnin _]. apply Hnin, list_elem_of_here.
Qed.

(** ** Cycles as closed trails *)

Lemma trail_avoid (es : list Edge) (k : nat) (y z : Z) (ks : list nat) :
  trail es y ks z → k ∉ ks → reach (take k es ++ drop (S k) es) y z.
Proof.
  induction 1 as [x | x y z k' ks ed Hk' Hj H IH]; intros Hnot; [constructor|].
  apply not_elem_of_cons in Hnot as [Hne Hnot].
  eapply reach_step; [|by apply IH].
  exists ed. split; [|done]. apply elem_of_app.
  destruct (decide (k' < k)%nat) as [Hlt|Hge].
  - left. apply elem_of_take. eauto.
  - right. apply list_elem_of_lookup. exists (k' - S k)%nat.
    rewrite lookup_drop. rewrite <- Hk'. f_equal. lia.
Qed.

Lemma trail_split (es : list Edge) (y z : Z) (ks1 ks2 : list nat) (k : nat) :
  trail es y (ks1 ++ k :: ks2) z →
  ∃ a b ed, trail es y ks1 a ∧ es !! k = Some ed ∧ joins ed a b
            ∧ trail es b ks2 z.
Proof.
  revert y. induction ks1 as [|k1 ks1 IH]; intros y; simpl.
  - inversion 1; subst. eexists _, _, _. split_and!; eauto using trail_nil.
  - inversion 1 as [|? y' ? ? ? ed1 Hk1 Hj1 Hrest]; subst.
    destruct (IH _ Hrest) as (a & b & ed & Ha & Hk & Hj & Hb).
    exists a, b, ed. split_and!; eauto using trail_cons.
Qed.

(** Every walk can be cut down to one that repeats no edge. *)
Lemma reach_trail (es : list Edge) (x z : Z) :
  reach es x z → ∃ ks, NoDup ks ∧ trail es x ks z.
Proof.
  induction 1 as [x | x y z (ed & Hin & Hj) H (ks & Hnd & Ht)].
  - exists []. split; constructor.
  - apply list_elem_of_lookup in Hin as [k Hk].
    destruct (decide (k ∈ ks)) as [Hks|Hks].
    + apply list_elem_of_split in Hks as (ks1 & ks2 & ->).
      apply trail_split in Ht as (a & b & ed' & _ & Hk' & Hj' & Hb).
      rewrite Hk in Hk'. injection Hk' as <-.
      apply NoDup_app in Hnd as (_ & _ & Hnd2).
      assert (b = x ∨ b = y) as [-> | ->].
      { destruct Hj as [[? ?]|[? ?]], Hj' as [[? ?]|[? ?]]; subst; auto. }
      * exists ks2. split; [by apply NoDup_cons in Hnd2 as [_ ?]|done].
      * exists (k :: ks2). split; [done|]. eapply trail_cons; eauto.
    + exists (k :: ks). split; [by constructor|]. eapply trail_cons; eauto.
Qed.

Lemma shift_lookup (l1 l2 : list Edge) (ed f : Edge) (k : nat) :
  (l1 ++ l2) !! k = Some f → (l1 ++ ed :: l2) !! shift (length l1) k = Some f.
Proof.
  unfold shift. intros Hk. destruct (decide (k < length l1)%nat) as [Hlt|Hge].
  - rewrite lookup_app_l in Hk |- * by done. done.
  - rewrite lookup_app_r in Hk |- * by lia.
    replace (S k - length l1)%nat with (S (k - length l1)) by lia. done.
Qed.

Lemma trail_shift (l1 l2 : list Edge) (ed : Edge) (x y : Z) (ks : list nat) :
  trail (l1 ++ l2) x ks y →
  trail (l1 ++ ed :: l2) x (shift (length l1) <$> ks) y.
Proof.
  induction 1 as [x | x y z k ks f Hk Hj H IH]; simpl; [constructor|].
  eapply trail_cons; eauto using shift_lookup.
Qed.

Lemma shift_inj (m a b : nat) : shift m a = shift m b → a = b.
Proof. unfold shift. repeat case_decide; lia. Qed.

Lemma shift_ne (m k : nat) : shift m k ≠ m.
Proof. unfold shift. case_decide; lia. Qed.

(** A list of edges in which no edge closes a cycle with the others is one
    without cycles, and conversely. *)
Lemma all_bridges_iff_no_cycle (es : list Edge) : all_bridges es ↔ ¬ has_cycle es.
Proof.
  split.
  - intros Hac (x & ks & Hne & Hnd & Ht).
    destruct ks as [|k ks]; [done|].
    inversion Ht as [|? y ? ? ? ed Hk Hj Ht']; subst.
    apply NoDup_cons in Hnd as [Hnot _].
    pose proof (trail_avoid es k _ _ _ Ht' Hnot) as Hr.
    apply (Hac (take k es) ed (drop (S k) es)).
    { symmetry. by apply take_drop_middle. }
    destruct Hj as [[-> ->]|[-> ->]]; [by apply reach_sym|done].
  - intros Hno l1 ed l2 -> Hr.
    apply reach_sym, reach_trail in Hr as (ks & Hnd & Ht).
    apply Hno. exists (edge_u ed), (length l1 :: (shift (length l1) <$> ks)).
    split_and!; [done| |].
    + constructor.
      * intros Hin. apply list_elem_of_fmap in Hin as (k & Hk & _).
        by apply (shift_ne (length l1) k).
      * apply NoDup_fmap_2_strong; [|done]. intros a b _ _. apply shift_inj.
    + eapply trail_cons; [apply list_lookup_middle; done|by left|].
      by apply trail_shift.
Qed.

Lemma acyclic_all_bridges (es : list Edge) : acyclic es ↔ all_bridges es.
Proof. unfold acyclic. by rewrite all_bridges_iff_no_cycle. Qed.

(** ** [sorted] *)

Lemma insert_by_perm {A : Type} (key : A → Z) (x : A) (l : list A) :
  insert_by key x l ≡ₚ x :: l.
Proof.
  induction l as [|y l IH]; simpl; [done|].
  destruct (key x <=? key y); [done|].
  rewrite IH. apply perm_swap.
Qed.

Lemma sorted_perm {A : Type} (key : A → Z) (l : list A) : sorted key l ≡ₚ l.
Proof.
  induction l as [|x l IH]; simpl; [done|].
  fold (sorted key l). by rewrite insert_by_perm, IH.
Qed.

Lemma insert_by_sorted {A : Type} (key : A → Z) (x : A) (l : list A) :
  StronglySorted (by_key key) l → StronglySorted (by_key key) (insert_by key x l).
Proof.
  induction 1 as [|y l Hl IH Hy]; simpl.
  - repeat constructor.
  - destruct (Z.leb_spec (key x) (key y)) as [Hxy|Hxy].
    + constructor; [by constructor|].
      constructor; [done|].
      eapply Forall_impl; [exact Hy|]. unfold by_key. intros; lia.
    + constructor; [done|].
      rewrite insert_by_perm. constructor; [|done]. unfold by_key. lia.
Qed.

Lemma sorted_sorted {A : Type} (key : A → Z) (l : list A) :
  StronglySorted (by_key key) (sorted key l).
Proof.
  induction l as [|x l IH]; simpl; [constructor|].
  by apply insert_by_sorted.
Qed.

(** Items with equal keys keep the order they had: the sort is stable. *)
Lemma insert_by_stable {A : Type} (key : A → Z) (k : Z) (x : A) (l : list A) :
  filter (λ a, key a = k) (insert_by key x l) = filter (λ a, key a = k) (x :: l).
Proof.
  induction l as [|y l IH]; simpl; [done|].
  destruct (Z.leb_spec (key x) (key y)) as [Hxy|Hxy]; [done|].
  rewrite (filter_cons _ y), IH, !(filter_cons _ x), (filter_cons _ y).
  destruct (decide (key x = k)), (decide (key y = k)); try done. lia.
Qed.

Lemma sorted_stable {A : Type} (key : A → Z) (k : Z) (l : list A) :
  filter (λ a, key a = k) (sorted key l) = filter (λ a, key a = k) l.
Proof.
  induction l as [|x l IH]; simpl; [done|]. fold (sorted key l).
  by rewrite insert_by_stable, !filter_cons, IH.
Qed.

Lemma sorted_prefix_le (L : list Edge) (k : nat) (ed f : Edge) :
  StronglySorted (by_key edge_w) L → L !! k = Some ed →
  f ∈ take (S k) L → edge_w f ≤ edge_w ed.
Proof.
  intros Hs Hk Hf. rewrite (take_S_r _ _ _ Hk) in Hf.
  apply elem_of_app in Hf as [Hf|Hf].
  - rewrite <- (take_drop_middle _ _ _ Hk) in Hs.
    eapply (StronglySorted_app_1_elem_of _ _ _ f ed Hs); [done|apply list_elem_of_here].
  - apply list_elem_of_singleton in Hf as ->. lia.
Qed.

(** ** [union] links by rank *)

Lemma find_root (fuel : nat) (s : store) (r : Z) :
  (0 < fuel)%nat → is_root (parent s) r → find fuel r s = Ok (r, s).
Proof. intros Hf Hr. apply (find_root_in fuel 0); [by constructor|done]. Qed.

Lemma set_parent_in_range (s : store) (j x : Z) :
  0 ≤ j < Z.of_nat (length (parent s)) →
  set_parent j x s = Ok (tt, Store (<[Z.to_nat j := x]> (parent s)) (rank s)).
Proof. intros H. unfold set_parent. by rewrite setitem_in_range. Qed.

Lemma set_rank_in_range (s : store) (j x : Z) :
  0 ≤ j < Z.of_nat (length (rank s)) →
  set_rank j x s = Ok (tt, Store (parent s) (<[Z.to_nat j := x]> (rank s))).
Proof. intros H. unfold set_rank. by rewrite setitem_in_range. Qed.

Lemma union_found (fuel : nat) (p rk : list Z) (x y xr yr rx ry : Z) :
  find fuel x (Store p rk) = Ok (xr, Store p rk) →
  find fuel y (Store p rk) = Ok (yr, Store p rk) →
  is_root p xr → is_root p yr →
  rk !! Z.to_nat xr = Some rx → rk !! Z.to_nat yr = Some ry →
  union fuel x y (Store p rk) =
    Ok (tt, if decide (rx < ry) then Store (<[Z.to_nat xr := yr]> p) rk
            else if decide (ry < rx) then Store (<[Z.to_nat yr := xr]> p) rk
            else Store (<[Z.to_nat yr := xr]> p) (<[Z.to_nat xr := rx + 1]> rk)).
Proof.
  intros Hfx Hfy Hx Hy Hrx Hry. unfold union.
  pose proof (is_root_range _ _ Hx) as Hxr.
  pose proof (is_root_range _ _ Hy) as Hyr.
  rewrite (M_bind_ok _ _ _ _ _ Hfx).
  rewrite (M_bind_ok _ _ _ _ _ Hfy).
  rewrite (M_bind_ok _ _ _ _ _ (rank_at_lookup (Store p rk) xr rx (proj1 Hxr) Hrx)).
  rewrite (M_bind_ok _ _ _ _ _ (rank_at_lookup (Store p rk) yr ry (proj1 Hyr) Hry)).
  destruct (Z.ltb_spec rx ry) as [Hlt|Hge].
  - rewrite decide_True by done. by rewrite set_parent_in_range.
  - rewrite decide_False by lia.
    rewrite (M_bind_ok _ _ _ _ _ (rank_at_lookup (Store p rk) xr rx (proj1 Hxr) Hrx)).
    rewrite (M_bind_ok _ _ _ _ _ (rank_at_lookup (Store p rk) yr ry (proj1 Hyr) Hry)).
    destruct (Z.gtb_spec rx ry) as [Hgt|Hle].
    + rewrite decide_True by lia. by rewrite set_parent_in_range.
    + rewrite decide_False by lia.
      unfold mbind at 1. unfold M_bind.
      rewrite set_parent_in_range by done.
      assert (rank_at xr (Store (<[Z.to_nat yr := xr]> p) rk)
              = Ok (rx, Store (<[Z.to_nat yr := xr]> p) rk)) as Hr.
      { apply rank_at_lookup; [lia|done]. }
      rewrite (M_bind_ok _ _ _ _ _ Hr).
      rewrite set_rank_in_range; [done|]. simpl.
      apply lookup_lt_Some in Hrx. lia.
Qed.

Lemma union_roots (fuel : nat) (p rk : list Z) (x y rx ry : Z) :
  (0 < fuel)%nat → is_root p x → is_root p y →
  rk !! Z.to_nat x = Some rx → rk !! Z.to_nat y = Some ry →
  union fuel x y (Store p rk) =
    Ok (tt, if decide (rx < ry) then Store (<[Z.to_nat x := y]> p) rk
            else if decide (ry < rx) then Store (<[Z.to_nat y := x]> p) rk
            else Store (<[Z.to_nat y := x]> p) (<[Z.to_nat x := rx + 1]> rk)).
Proof.
  intros Hf Hx Hy Hrx Hry.
  apply union_found; try done; by apply find_root.
Qed.

(** ** The initialisation loop *)

Lemma make_sets_foldl (l : list Z) (s : store) :
  foldl (λ s node, Store (parent s ++ [node]) (rank s ++ [0])) s l
  = Store (parent s ++ l) (rank s ++ replicate (length l) 0).
Proof.
  revert s. induction l as [|a l IH]; intros s; simpl.
  - rewrite !app_nil_r. by destruct s.
  - rewrite IH. simpl. by rewrite <- !app_assoc.
Qed.

Lemma make_sets_eq (n : Z) :
  make_sets n = Store (seqZ 0 n) (replicate (Z.to_nat n) 0).
Proof.
  unfold make_sets, range. rewrite make_sets_foldl. simpl.
  by rewrite length_seqZ.
Qed.

(** ** The invariant of the [while] loop *)

Lemma reach_snoc (es : list Edge) (ed : Edge) (x y : Z) :
  reach (es ++ [ed]) x y ↔
  reach es x y ∨ (reach es x (edge_u ed) ∧ reach es (edge_v ed) y)
  ∨ (reach es x (edge_v ed) ∧ reach es (edge_u ed) y).
Proof.
  assert (reach (es ++ [ed]) x y ↔ reach (ed :: es) x y) as ->.
  { split; apply reach_mono; intros f;
      rewrite elem_of_app, !elem_of_cons, elem_of_nil; tauto. }
  split; [apply reach_cons_inv|apply reach_cons_intro].
Qed.

Lemma filter_all {A : Type} (P : A → Prop) `{!∀ x, Decision (P x)} (l : list A) :
  (∀ x, x ∈ l → P x) → filter P l = l.
Proof.
  induction l as [|a l IH]; intros Hall; [done|].
  rewrite filter_cons, decide_True by apply Hall, list_elem_of_here.
  f_equal. apply IH. intros x Hx. by apply Hall, list_elem_of_further.
Qed.

Lemma dominates_step (n : Z) (L : list Edge) (k : nat) (ed : Edge)
    (tree tree' : list Edge) (p : list Z) (d : nat) :
  StronglySorted (by_key edge_w) L → L !! k = Some ed →
  wf_edges n (take (S k) L) →
  dominates (take k L) tree →
  tree' = tree ∨ tree' = tree ++ [ed] →
  uf_inv n p tree' d →
  (∀ f, f ∈ take (S k) L → reach tree' (edge_u f) (edge_v f)) →
  tree' ⊆ take (S k) L →
  dominates (take (S k) L) tree'.
Proof.
  intros Hs Hk Hwf Hdom Htree Hinv Hdone Hsub w es Hf Hes Hw.
  destruct (decide (edge_w ed ≤ w)) as [Hle|Hgt].
  - rewrite filter_all.
    + eapply forest_bound; eauto using wf_edges_sub.
    + intros f Hin. unfold le_weight.
      pose proof (sorted_prefix_le L k ed f Hs Hk (Hsub _ Hin)). lia.
  - assert (es ⊆ take k L) as Hes'.
    { intros f Hin. pose proof (Hes _ Hin) as Hin'.
      rewrite (take_S_r _ _ _ Hk), elem_of_app, list_elem_of_singleton in Hin'.
      destruct Hin' as [?| ->]; [done|]. specialize (Hw _ Hin). lia. }
    specialize (Hdom w es Hf Hes' Hw).
    destruct Htree as [->| ->]; [done|].
    rewrite filter_app, length_app. lia.
Qed.

Lemma wf_edges_snoc (n : Z) (es : list Edge) (ed : Edge) :
  wf_edges n es → 0 ≤ edge_u ed < n → 0 ≤ edge_v ed < n →
  wf_edges n (es ++ [ed]).
Proof.
  intros Hwf Hu Hv f Hf. apply elem_of_app in Hf as [Hf|Hf]; [auto|].
  by apply list_elem_of_singleton in Hf as ->.
Qed.

(** Accepting an edge between two trees, whichever root goes under the other. *)
Lemma uf_inv_accept (n : Z) (p p' : list Z) (tree : list Edge) (ed : Edge)
    (d : nat) (x y : Z) :
  uf_inv n p tree d →
  root_in p d (edge_u ed) x → root_in p d (edge_v ed) y → x ≠ y →
  p' = <[Z.to_nat x := y]> p ∨ p' = <[Z.to_nat y := x]> p →
  uf_inv n p' (tree ++ [ed]) (S d).
Proof.
  intros Hinv Hx Hy Hxy Hp.
  assert (0 ≤ edge_u ed < n) as Hu.
  { apply root_in_range in Hx. by rewrite (ufi_len _ _ _ _ Hinv) in Hx. }
  assert (0 ≤ edge_v ed < n) as Hv.
  { apply root_in_range in Hy. by rewrite (ufi_len _ _ _ _ Hinv) in Hy. }
  assert (wf_edges n (tree ++ [ed])) as Hwf.
  { apply wf_edges_snoc; [apply Hinv|done..]. }
  assert (length (tree ++ [ed]) = S (length tree)) as Hlen.
  { rewrite length_app. simpl. lia. }
  destruct Hp as [-> | ->].
  - eapply (uf_inv_link n p tree _ d (edge_u ed) (edge_v ed) x y); eauto;
      try (by exists d).
    intros j k. apply reach_snoc.
  - eapply (uf_inv_link n p tree _ d (edge_v ed) (edge_u ed) y x); eauto;
      try (by exists d).
    intros j k. rewrite reach_snoc. tauto.
Qed.

Lemma loop_body_inv (n : Z) (L : list Edge) (fuel : nat) (c : locals) (ed : Edge) :
  loop_inv n L c → StronglySorted (by_key edge_w) L →
  L !! Z.to_nat (i c) = Some ed →
  wf_edges n (take (S (Z.to_nat (i c))) L) →
  e c < n - 1 → n ≤ Z.of_nat fuel →
  ∃ c', loop_body fuel (mkGraph n L) c = Ok c' ∧ loop_inv n L c'
        ∧ i c' = i c + 1.
Proof.
  intros Hinv Hs Hk Hwf Hguard Hfuel.
  destruct c as [[p rk] ic ec m].
  destruct Hinv as [Hi He Huf Hrank Hdone Hsub Hac Hdom]. simpl in *.
  assert (take (S (Z.to_nat ic)) L = take (Z.to_nat ic) L ++ [ed]) as Htake
    by (by apply take_S_r).
  assert (ed ∈ take (S (Z.to_nat ic)) L) as Hed.
  { rewrite Htake. apply elem_of_app. right. apply list_elem_of_here. }
  destruct (Hwf ed Hed) as [Hu Hv].
  destruct (ufi_root _ _ _ _ Huf _ Hu) as [x Hx].
  destruct (ufi_root _ _ _ _ Huf _ Hv) as [y Hy].
  assert (length m < fuel)%nat as Hd by lia.
  pose proof (find_root_in fuel _ (Store p rk) _ _ Hx Hd) as Hfx.
  pose proof (find_root_in fuel _ (Store p rk) _ _ Hy Hd) as Hfy.
  assert (Z.to_nat (ic + 1) = S (Z.to_nat ic)) as Hnext by lia.
  assert (ic + 1 ≤ Z.of_nat (length L)) as Hi'.
  { apply lookup_lt_Some in Hk. lia. }
  unfold loop_body. simpl.
  rewrite (getitem_lookup L ic ed (proj1 Hi) Hk). simpl.
  destruct ed as [u0 v0 w0]. simpl in *.
  rewrite Hfx. simpl. rewrite Hfy. simpl.
  destruct (Z.eqb_spec x y) as [->|Hxy]; simpl.
  - eexists. split; [reflexivity|]. split; [|done].
    assert (reach m u0 v0) as Hr.
    { eapply ufi_sound; eauto; by exists (length m). }
    assert (∀ f, f ∈ take (S (Z.to_nat ic)) L → reach m (edge_u f) (edge_v f))
      as Hdone'.
    { rewrite Htake. intros f Hf. apply elem_of_app in Hf as [Hf|Hf]; [auto|].
      by apply list_elem_of_singleton in Hf as ->. }
    assert (m ⊆ take (S (Z.to_nat ic)) L) as Hsub'.
    { rewrite Htake. intros f Hf. apply elem_of_app. auto. }
    split; simpl; rewrite ?Hnext; try done; [lia|].
    eapply dominates_step; eauto.
  - pose proof (root_in_is_root _ _ _ _ Hx) as Hrx.
    pose proof (root_in_is_root _ _ _ _ Hy) as Hry.
    destruct (lookup_lt_is_Some_2 rk (Z.to_nat x)) as [rx Hlx].
    { apply is_root_range in Hrx. lia. }
    destruct (lookup_lt_is_Some_2 rk (Z.to_nat y)) as [ry Hly].
    { apply is_root_range in Hry. lia. }
    rewrite (union_roots fuel p rk x y rx ry) by (done || lia).
    match goal with |- context [Ok (tt, ?s)] => set (s' := s) end.
    simpl.
    assert (length (rank s') = length (parent s')
            ∧ (parent s' = <[Z.to_nat x := y]> p
               ∨ parent s' = <[Z.to_nat y := x]> p)) as [Hrank' Hp'].
    { subst s'. repeat case_decide; simpl; rewrite ?length_insert; auto. }
    eexists. split; [reflexivity|]. split; [|done].
    assert (¬ reach m u0 v0) as Hnew.
    { intros Hr. apply Hxy.
      eapply (ufi_complete _ _ _ _ Huf u0 v0); eauto; by exists (length m). }
    assert (∀ f, f ∈ take (S (Z.to_nat ic)) L →
                 reach (m ++ [mkEdge u0 v0 w0]) (edge_u f) (edge_v f)) as Hdone'.
    { rewrite Htake. intros f Hf. apply elem_of_app in Hf as [Hf|Hf].
      - eapply reach_mono; [|by apply Hdone]. intros g Hg. apply elem_of_app. auto.
      - apply list_elem_of_singleton in Hf as ->.
        apply reach_edge, elem_of_app. right. apply list_elem_of_here. }
    assert (m ++ [mkEdge u0 v0 w0] ⊆ take (S (Z.to_nat ic)) L) as Hsub'.
    { rewrite Htake. intros f Hf. apply elem_of_app.
      apply elem_of_app in Hf as [Hf|Hf]; auto. }
    assert (uf_inv n (parent s') (m ++ [mkEdge u0 v0 w0])
              (length (m ++ [mkEdge u0 v0 w0]))) as Huf'.
    { replace (length (m ++ [mkEdge u0 v0 w0])) with (S (length m))
        by (rewrite length_app; simpl; lia).
      eapply uf_inv_accept; eauto. }
    split; simpl; rewrite ?Hnext; try done.
    + lia.
    + rewrite length_app. simpl. lia.
    + by apply all_bridges_snoc.
    + eapply dominates_step; eauto.
Qed.

Lemma take_subseteq_le {A : Type} (l : list A) (a b : nat) :
  (a ≤ b)%nat → take a l ⊆ take b l.
Proof.
  intros Hab x. rewrite !elem_of_take. intros (j & Hj & Hlt).
  exists j. split; [done|lia].
Qed.

(** Over a prefix of [m] well-formed edges the loop either stops inside the
    prefix because it has its [n - 1] edges, or arrives at position [m]
    still looking for edges. *)
Lemma while_loop_prefix (n : Z) (L : list Edge) (fuel m : nat) :
  StronglySorted (by_key edge_w) L → (m ≤ length L)%nat →
  wf_edges n (take m L) → n ≤ Z.of_nat fuel →
  ∀ (k : nat) (c : locals),
    loop_inv n L c → i c ≤ Z.of_nat m → (m - Z.to_nat (i c) ≤ k)%nat →
    (∃ c', while_loop k fuel (mkGraph n L) c = Ok c' ∧ loop_inv n L c'
           ∧ i c' ≤ Z.of_nat m ∧ ¬ guard n c')
    ∨ (∃ c', loop_inv n L c' ∧ i c' = Z.of_nat m ∧ guard n c'
             ∧ while_loop k fuel (mkGraph n L) c
               = while_loop (k - (m - Z.to_nat (i c))) fuel (mkGraph n L) c').
Proof.
  intros Hs Hm Hwf Hfuel k.
  induction k as [|k IH]; intros c Hinv Hi Hk.
  - destruct (Z.ltb_spec (e c) (n - 1)) as [Hg|Hg].
    + right. exists c. pose proof (li_i _ _ _ Hinv).
      split_and!; [done|lia|done..].
    + left. exists c. simpl. destruct (Z.ltb_spec (e c) (n - 1)); [lia|].
      split_and!; [done..|]. unfold guard. lia.
  - destruct (Z.ltb_spec (e c) (n - 1)) as [Hg|Hg].
    2: { left. exists c. simpl. destruct (Z.ltb_spec (e c) (n - 1)); [lia|].
         split_and!; [done..|]. unfold guard. lia. }
    pose proof (li_i _ _ _ Hinv) as Hi0.
    destruct (decide (i c = Z.of_nat m)) as [Him|Him].
    { right. exists c. split_and!; [done..|].
      f_equal. lia. }
    assert (is_Some (L !! Z.to_nat (i c))) as [ed Hed].
    { apply lookup_lt_is_Some_2. lia. }
    destruct (loop_body_inv n L fuel c ed Hinv Hs Hed) as (c1 & Hb & Hinv1 & Hi1);
      [|done..|].
    { eapply wf_edges_sub; [|exact Hwf]. apply take_subseteq_le. lia. }
    destruct (IH c1 Hinv1) as [(c' & Hw & H')|(c' & Hinv' & Hi' & Hg' & Hw)];
      [lia..| |].
    + left. exists c'. split; [|done]. simpl.
      destruct (Z.ltb_spec (e c) (n - 1)); [|lia]. by rewrite Hb.
    + right. exists c'. split_and!; [done..|]. simpl.
      destruct (Z.ltb_spec (e c) (n - 1)); [|lia]. rewrite Hb. simpl.
      rewrite Hw. f_equal. lia.
Qed.

Lemma all_bridges_nil : all_bridges [].
Proof. intros l1 ed l2 H. by destruct l1. Qed.

Lemma loop_inv_init (n : Z) (L : list Edge) :
  0 ≤ n → loop_inv n L (Locals (make_sets n) 0 0 []).
Proof.
  intros Hn. rewrite make_sets_eq. split; simpl.
  - lia.
  - done.
  - by apply uf_inv_init.
  - by rewrite length_replicate, length_seqZ.
  - intros ed Hin. by apply elem_of_nil in Hin.
  - done.
  - apply all_bridges_nil.
  - intros w es _ Hes _. destruct es as [|ed es]; [simpl; lia|].
    specialize (Hes ed (list_elem_of_here _ _)). by apply elem_of_nil in Hes.
Qed.

(** ** Running the loop over the sorted edges *)

Lemma loop_inv_done_sub (n : Z) (L pre : list Edge) (c : locals) (x y : Z) :
  loop_inv n L c → take (Z.to_nat (i c)) L = pre →
  reach pre x y → reach (mst c) x y.
Proof. intros Hinv <-. apply reach_sub, Hinv. Qed.

Lemma kruskal_run (fuel : nat) (n : Z) (L pre post : list Edge) :
  StronglySorted (by_key edge_w) L → 0 < n → n ≤ Z.of_nat fuel →
  L = pre ++ post → wf_edges n pre →
  (connected n pre →
     ∃ c, while_loop (S (length L)) fuel (mkGraph n L) (c0 n) = Ok c
          ∧ loop_inv n L c ∧ e c = n - 1 ∧ mst c ⊆ pre)
  ∧ (¬ connected n pre →
     ∃ c k, loop_inv n L c ∧ i c = Z.of_nat (length pre) ∧ guard n c
            ∧ while_loop (S (length L)) fuel (mkGraph n L) (c0 n)
              = while_loop (S k) fuel (mkGraph n L) c).
Proof.
  intros Hs Hn Hfuel HL Hwf.
  assert (take (length pre) L = pre) as Htake by (by rewrite HL, take_app_length).
  assert (length pre ≤ length L)%nat as Hlen.
  { rewrite HL, length_app. lia. }
  destruct (while_loop_prefix n L fuel (length pre) Hs Hlen) with
    (k := S (length L)) (c := c0 n)
    as [(c & Hw & Hinv & Hi & Hg)|(c & Hinv & Hi & Hg & Hw)];
    [by rewrite Htake|done|apply loop_inv_init; lia|simpl; lia|simpl; lia| |].
  - (* the loop left by its condition *)
    assert (e c = n - 1) as He.
    { pose proof (uf_inv_edges_le _ _ _ _ (li_uf _ _ _ Hinv) Hn).
      pose proof (li_e _ _ _ Hinv). unfold guard in Hg. lia. }
    assert (mst c ⊆ pre) as Hsub.
    { rewrite <- Htake. etrans; [apply (li_sub _ _ _ Hinv)|].
      apply take_subseteq_le. pose proof (li_i _ _ _ Hinv). lia. }
    split.
    + intros _. by exists c.
    + intros Hnc. exfalso. apply Hnc.
      assert (connected n (mst c)) as [_ Hconn].
      { eapply uf_inv_spanning; [apply Hinv|done|].
        pose proof (li_e _ _ _ Hinv). lia. }
      split; [done|]. intros x y Hx Hy. eapply reach_mono; eauto.
  - (* the loop is at the end of the prefix and wants more edges *)
    split.
    + intros [_ Hconn]. exfalso.
      assert (connected n (mst c)) as Hc.
      { split; [done|]. intros x y Hx Hy.
        eapply (loop_inv_done_sub n L pre); eauto.
        rewrite Hi, Nat2Z.id. done. }
      pose proof (uf_inv_connected _ _ _ _ (li_uf _ _ _ Hinv) Hc).
      pose proof (li_e _ _ _ Hinv). unfold guard in Hg. lia.
    + intros _. exists c, (length L - length pre)%nat.
      split_and!; [done..|]. rewrite Hw. f_equal. simpl. lia.
Qed.

Lemma while_loop_exhausted (k fuel : nat) (n : Z) (L : list Edge) (c : locals) :
  guard n c → i c = Z.of_nat (length L) →
  while_loop (S k) fuel (mkGraph n L) c = IndexError.
Proof.
  intros Hg Hi. simpl. unfold guard in Hg.
  destruct (Z.ltb_spec (e c) (n - 1)); [|lia].
  unfold loop_body. simpl. rewrite getitem_out; [done|lia].
Qed.

Lemma sorted_elem_of {A : Type} (key : A → Z) (l : list A) (x : A) :
  x ∈ sorted key l ↔ x ∈ l.
Proof. by rewrite (sorted_perm key l). Qed.

Lemma foldl_cost (tree : list Edge) (a : Z) :
  foldl (λ acc ed, acc + edge_w ed) a tree = a + total_weight tree.
Proof.
  revert a. induction tree as [|ed tree IH]; intros a; simpl; [lia|].
  rewrite IH. unfold total_weight. simpl. lia.
Qed.

Lemma report_cost (tree : list Edge) :
  minimum_cost (report tree) = total_weight tree.
Proof. unfold report. simpl. by rewrite foldl_cost. Qed.

(** ** Comparing total weights *)

Lemma total_weight_perm (es es' : list Edge) :
  es ≡ₚ es' → total_weight es = total_weight es'.
Proof.
  unfold total_weight. induction 1; simpl; lia.
Qed.

Lemma filter_none {A : Type} (P : A → Prop) `{!∀ x, Decision (P x)} (l : list A) :
  (∀ x, x ∈ l → ¬ P x) → filter P l = [].
Proof.
  induction l as [|a l IH]; intros Hall; [done|].
  rewrite filter_cons, decide_False by apply Hall, list_elem_of_here.
  apply IH. intros x Hx. by apply Hall, list_elem_of_further.
Qed.

(** Two ascending lists of equal length: if below every bound the first has
    at least as many items as the second, it weighs no more. *)
Lemma sorted_dominance (K T : list Edge) :
  StronglySorted (by_key edge_w) K → StronglySorted (by_key edge_w) T →
  length K = length T →
  (∀ w, (length (filter (le_weight w) T) ≤ length (filter (le_weight w) K))%nat) →
  total_weight K ≤ total_weight T.
Proof.
  intros HK. revert T.
  induction HK as [|k K HK IH Hk]; intros T HT Hlen Hdom.
  - destruct T; [done|discriminate].
  - destruct HT as [|t T HT Ht]; [discriminate|].
    rewrite Forall_forall in Hk, Ht. unfold by_key in Hk, Ht.
    assert (edge_w k ≤ edge_w t) as Hkt.
    { destruct (Z.le_gt_cases (edge_w k) (edge_w t)) as [|Hgt]; [done|exfalso].
      specialize (Hdom (edge_w t)).
      rewrite (filter_cons _ t), decide_True in Hdom by (unfold le_weight; lia).
      rewrite (filter_none _ (k :: K)) in Hdom; [simpl in Hdom; lia|].
      intros x Hx. unfold le_weight.
      apply elem_of_cons in Hx as [->|Hx]; [lia|]. specialize (Hk _ Hx). lia. }
    assert (total_weight K ≤ total_weight T) as Hrec.
    { apply IH; [done|simpl in Hlen; lia|]. intros w.
      destruct (decide (edge_w t ≤ w)) as [Hle|Hgt].
      - specialize (Hdom w).
        rewrite (filter_cons _ t), (filter_cons _ k) in Hdom.
        rewrite !decide_True in Hdom by (unfold le_weight; lia).
        simpl in Hdom. lia.
      - rewrite (filter_none _ T); [simpl; lia|].
        intros x Hx. unfold le_weight. specialize (Ht _ Hx). lia. }
    unfold total_weight in *. simpl. lia.
Qed.

Lemma weight_dominance (K T : list Edge) :
  length K = length T →
  (∀ w, (length (filter (le_weight w) T) ≤ length (filter (le_weight w) K))%nat) →
  total_weight K ≤ total_weight T.
Proof.
  intros Hlen Hdom.
  rewrite <- (total_weight_perm _ _ (sorted_perm edge_w K)).
  rewrite <- (total_weight_perm _ _ (sorted_perm edge_w T)).
  apply sorted_dominance; try apply sorted_sorted.
  - by rewrite !sorted_perm.
  - intros w. by rewrite !sorted_perm.
Qed.

(** ** Connected graphs *)

Lemma kruskalMST_unfold (fuel : nat) (self : Graph) :
  snd (kruskalMST fuel self)
  = (c ← while_loop (S (length (sorted edge_w (graph self)))) fuel
          (mkGraph (v self) (sorted edge_w (graph self))) (c0 (v self));
     Ok (report (mst c))).
Proof. reflexivity. Qed.

Lemma kruskalMST_connected (fuel : nat) (self : Graph) :
  wf_edges (v self) (graph self) → connected (v self) (graph self) →
  v self ≤ Z.of_nat fuel →
  ∃ c, snd (kruskalMST fuel self) = Ok (report (mst c))
       ∧ loop_inv (v self) (sorted edge_w (graph self)) c
       ∧ e c = v self - 1.
Proof.
  intros Hwf [Hn Hconn] Hfuel.
  set (L := sorted edge_w (graph self)).
  destruct (kruskal_run fuel (v self) L L [] (sorted_sorted _ _) Hn Hfuel)
    as [Hrun _].
  { by rewrite app_nil_r. }
  { intros ed Hin. apply Hwf. by apply sorted_elem_of in Hin. }
  destruct Hrun as (c & Hw & Hinv & He & _).
  { split; [done|]. intros x y Hx Hy. eapply reach_mono; [|by apply Hconn].
    intros ed Hin. by apply sorted_elem_of. }
  exists c. split; [|done]. rewrite kruskalMST_unfold. fold L. by rewrite Hw.
Qed.

(** The accepted edges weigh no more than any spanning tree of the graph. *)
Lemma loop_inv_minimum (n : Z) (L tree : list Edge) (c : locals) :
  StronglySorted (by_key edge_w) L → 0 < n → wf_edges n L →
  loop_inv n L c → e c = n - 1 → spanning_tree n L tree →
  total_weight (mst c) ≤ total_weight tree.
Proof.
  intros Hs Hn Hwf Hinv He (Hsub & Hconn & Hac).
  pose proof (li_e _ _ _ Hinv) as Hlen.
  assert (wf_edges n tree) as Hwft by (by eapply wf_edges_sub).
  apply acyclic_all_bridges, all_bridges_forest in Hac as Hf.
  destruct (forest_partition n tree ltac:(lia) Hwft Hf) as (q & dq & Hq).
  pose proof (uf_inv_connected _ _ _ _ Hq Hconn) as Hlent.
  apply weight_dominance; [lia|]. intros w.
  set (done := take (Z.to_nat (i c)) L).
  destruct (decide (Forall (λ f, f ∈ done) (filter (le_weight w) tree)))
    as [Hall|Hex].
  - apply (li_dom _ _ _ Hinv).
    + by apply forest_filter.
    + intros f Hin. rewrite Forall_forall in Hall. auto.
    + intros f Hin. by apply list_elem_of_filter in Hin as [? _].
  - apply not_Forall_Exists in Hex; [|apply _].
    apply Exists_exists in Hex as (f & Hin & Hnot). simpl in Hnot.
    apply list_elem_of_filter in Hin as [Hfw Hin]. unfold le_weight in Hfw.
    assert (f ∈ drop (Z.to_nat (i c)) L) as Hdrop.
    { pose proof (Hsub _ Hin) as HinL.
      rewrite <- (take_drop (Z.to_nat (i c)) L) in HinL.
      apply elem_of_app in HinL as [?|?]; done. }
    rewrite (filter_all _ (mst c)).
    + etrans; [apply length_filter|]. lia.
    + intros g Hg. unfold le_weight.
      apply (li_sub _ _ _ Hinv) in Hg.
      rewrite <- (take_drop (Z.to_nat (i c)) L) in Hs.
      pose proof (StronglySorted_app_1_elem_of _ _ _ g f Hs Hg Hdrop) as Hle.
      unfold by_key in Hle. lia.
Qed.

(** C1. On the graph of the [__main__] block (4 vertices; edges 0-1 of
    weight 10, 0-2 of weight 6, 0-3 of weight 5, 1-3 of weight 15 and 2-3
    of weight 4), [kruskalMST] selects the edges (2,3,4), (0,3,5) and
    (0,1,10), in this order, and prints the total weight 19. *)
Theorem kruskalMST_main_graph (fuel : nat) :
  main_graph
    = mkGraph 4 [mkEdge 0 1 10; mkEdge 0 2 6; mkEdge 0 3 5; mkEdge 1 3 15;
                 mkEdge 2 3 4]
  ∧ snd (kruskalMST (4 + fuel) main_graph)
    = Ok (Output [mkEdge 2 3 4; mkEdge 0 3 5; mkEdge 0 1 10] 19
            ["Edges in the constructed MST:"; "2 -- 3: weight == 4";
             "0 -- 3: weight == 5"; "0 -- 1: weight == 10";
             "Minimum spanning tree's total weight: 19"]%string).
Proof. split; reflexivity. Qed.

(** C2. For a connected graph on the vertices [0 .. V-1] whose edges have
    both ends in that range, [kruskalMST] returns normally and the edges it
    selected are [V - 1] edges of the graph that connect all [V] vertices
    and contain no cycle.  (A connected graph has at least [V - 1] edges, so
    that part of the premise needs no hypothesis of its own.) *)
Theorem kruskalMST_spanning_tree (fuel : nat) (self : Graph) :
  wf_edges (v self) (graph self) → connected (v self) (graph self) →
  v self ≤ Z.of_nat fuel →
  ∃ out, snd (kruskalMST fuel self) = Ok out
         ∧ Z.of_nat (length (out_mst out)) = v self - 1
         ∧ out_mst out ⊆ graph self
         ∧ connected (v self) (out_mst out)
         ∧ acyclic (out_mst out).
Proof.
  intros Hwf Hconn Hfuel.
  destruct (kruskalMST_connected fuel self Hwf Hconn Hfuel) as (c & Hrun & Hinv & He).
  exists (report (mst c)). simpl.
  pose proof (li_e _ _ _ Hinv) as Hlen.
  split_and!; [done|lia| | |apply acyclic_all_bridges, Hinv].
  - intros ed Hin. apply (li_sub _ _ _ Hinv) in Hin.
    apply subseteq_take in Hin. by apply sorted_elem_of in Hin.
  - eapply uf_inv_spanning; [apply Hinv|apply Hconn|lia].
Qed.

(** C3. For a connected graph with well-formed edges, the total weight
    [kruskalMST] reports is the weight of the edges it selected, and it is
    at most the weight of any spanning tree made of edges of the graph. *)
Theorem kruskalMST_minimum (fuel : nat) (self : Graph) (tree : list Edge) :
  wf_edges (v self) (graph self) → connected (v self) (graph self) →
  v self ≤ Z.of_nat fuel →
  spanning_tree (v self) (graph self) tree →
  ∃ out, snd (kruskalMST fuel self) = Ok out
         ∧ minimum_cost out = total_weight (out_mst out)
         ∧ minimum_cost out ≤ total_weight tree.
Proof.
  intros Hwf Hconn Hfuel (Hsub & Hct & Hat).
  destruct (kruskalMST_connected fuel self Hwf Hconn Hfuel) as (c & Hrun & Hinv & He).
  exists (report (mst c)). rewrite report_cost. simpl.
  split_and!; [done..|].
  eapply (loop_inv_minimum (v self) (sorted edge_w (graph self)));
    eauto using sorted_sorted.
  - apply Hconn.
  - intros ed Hin. apply Hwf. by apply sorted_elem_of in Hin.
  - split_and!; [|done..]. intros ed Hin. apply sorted_elem_of. auto.
Qed.

(** ** Checking concrete graphs *)

(** Walks never leave a class of a colouring that every edge respects. *)
Lemma reach_class (es : list Edge) (cls : Z → Z) (x y : Z) :
  Forall (λ ed, cls (edge_u ed) = cls (edge_v ed)) es →
  reach es x y → cls x = cls y.
Proof.
  rewrite Forall_forall. intros Hcls.
  induction 1 as [x | x y z (ed & Hin & Hj) H IH]; [done|].
  rewrite <- IH. specialize (Hcls ed Hin).
  destruct Hj as [[<- <-]|[<- <-]]; congruence.
Qed.

Lemma wf_edges_Forall (n : Z) (es : list Edge) :
  Forall (λ ed, (0 ≤ edge_u ed < n) ∧ (0 ≤ edge_v ed < n)) es → wf_edges n es.
Proof. rewrite Forall_forall. intros H ed Hin. auto. Qed.

(** Every vertex is linked to a hub. *)
Lemma connected_hub (n hub : Z) (es : list Edge) :
  0 < n → (∀ x, 0 ≤ x < n → reach es hub x) → connected n es.
Proof.
  intros Hn Hhub. split; [done|]. intros x y Hx Hy.
  eapply reach_trans; [apply reach_sym|]; eauto.
Qed.

Lemma all_bridges_cons (es : list Edge) (ed : Edge) :
  all_bridges es → ¬ reach es (edge_u ed) (edge_v ed) → all_bridges (ed :: es).
Proof.
  intros Hac Hnew l1 f l2 Heq Hr.
  destruct l1 as [|z l1]; simpl in *.
  - inversion Heq; subst. done.
  - inversion Heq; subst. clear Heq.
    assert (l1 ++ l2 ⊆ l1 ++ f :: l2) as Hsub.
    { intros g. rewrite !elem_of_app, !elem_of_cons. tauto. }
    assert (reach (l1 ++ f :: l2) (edge_u f) (edge_v f)) as Hf.
    { apply reach_edge. rewrite elem_of_app, elem_of_cons. tauto. }
    apply reach_cons_inv in Hr as [H|[[H1 H2]|[H1 H2]]].
    + by apply (Hac l1 f l2 eq_refl).
    + apply Hnew.
      eapply reach_trans; [apply reach_sym; eapply reach_mono; eauto|].
      eapply reach_trans; [exact Hf|].
      apply reach_sym; eapply reach_mono; eauto.
    + apply Hnew.
      eapply reach_trans; [eapply reach_mono; eauto|].
      eapply reach_trans; [apply reach_sym; exact Hf|].
      eapply reach_mono; eauto.
Qed.

(** The two readings of "no cycle" agree. *)
Lemma forest_all_bridges (es : list Edge) : forest es ↔ all_bridges es.
Proof.
  split; [|apply all_bridges_forest].
  induction es as [|ed es IH]; [intros _; apply all_bridges_nil|].
  intros [Hnew Hf]. apply all_bridges_cons; auto.
Qed.

Lemma main_graph_wf : wf_edges 4 (graph main_graph).
Proof. apply wf_edges_Forall. vm_compute. repeat constructor; discriminate. Qed.

Lemma main_graph_connected : connected 4 (graph main_graph).
Proof.
  apply (connected_hub 4 0); [lia|]. intros x Hx.
  assert (x = 0 ∨ x = 1 ∨ x = 2 ∨ x = 3) as [->|[->|[->| ->]]] by lia.
  - constructor.
  - apply (reach_edge _ (mkEdge 0 1 10)). vm_compute. repeat constructor.
  - apply (reach_edge _ (mkEdge 0 2 6)). vm_compute. repeat constructor.
  - apply (reach_edge _ (mkEdge 0 3 5)). vm_compute. repeat constructor.
Qed.

Lemma star_tree_spanning : spanning_tree 4 (graph main_graph) star_tree.
Proof.
  split_and!.
  - intros ed Hin. vm_compute in Hin |- *.
    repeat (apply elem_of_cons in Hin as [->|Hin]; [repeat constructor|]).
    by apply elem_of_nil in Hin.
  - apply (connected_hub 4 0); [lia|]. intros x Hx.
    assert (x = 0 ∨ x = 1 ∨ x = 2 ∨ x = 3) as [->|[->|[->| ->]]] by lia.
    + constructor.
    + apply (reach_edge _ (mkEdge 0 1 10)). repeat constructor.
    + apply (reach_edge _ (mkEdge 0 2 6)). repeat constructor.
    + apply (reach_edge _ (mkEdge 0 3 5)). repeat constructor.
  - apply acyclic_all_bridges, forest_all_bridges. simpl. split_and!; [| | |done].
    + intros Hr. apply (reach_class _ (λ z, if decide (z = 1) then 1 else 0)) in Hr;
        [discriminate|repeat constructor].
    + intros Hr. apply (reach_class _ (λ z, if decide (z = 2) then 1 else 0)) in Hr;
        [discriminate|repeat constructor].
    + intros Hr. by apply reach_nil in Hr.
Qed.

Lemma kruskalMST_spanning_tree_witness :
  ∃ out, snd (kruskalMST 4 main_graph) = Ok out
         ∧ Z.of_nat (length (out_mst out)) = v main_graph - 1
         ∧ out_mst out ⊆ graph main_graph
         ∧ connected (v main_graph) (out_mst out)
         ∧ acyclic (out_mst out).
Proof.
  apply (kruskalMST_spanning_tree 4 main_graph).
  - exact main_graph_wf.
  - exact main_graph_connected.
  - vm_compute. discriminate.
Defined.

Lemma kruskalMST_minimum_witness :
  ∃ out, snd (kruskalMST 4 main_graph) = Ok out
         ∧ minimum_cost out = total_weight (out_mst out)
         ∧ minimum_cost out ≤ total_weight star_tree.
Proof.
  apply (kruskalMST_minimum 4 main_graph star_tree).
  - exact main_graph_wf.
  - exact main_graph_connected.
  - vm_compute. discriminate.
  - exact star_tree_spanning.
Defined.

(** ** Disconnected graphs *)

Lemma islands_disconnected : ¬ connected 4 (graph islands).
Proof.
  intros [_ Hconn]. specialize (Hconn 0 2 ltac:(lia) ltac:(lia)).
  apply (reach_class _ (λ z, if decide (z < 2) then 0 else 1)) in Hconn;
    [discriminate|repeat constructor].
Qed.

(** C4 does not hold as stated: on the two islands the run ends in
    the [IndexError] that [self.graph[i]] raises once the edges are used up.
    That exception is not caught, so the method crashes; there is no
    outcome that names a disconnected graph. *)
Lemma kruskalMST_islands_crash :
  wf_edges 4 (graph islands) ∧ ¬ connected 4 (graph islands)
  ∧ snd (kruskalMST 4 islands) = IndexError.
Proof.
  split_and!.
  - apply wf_edges_Forall. vm_compute. repeat constructor; discriminate.
  - exact islands_disconnected.
  - reflexivity.
Qed.

(** C4, amended.  For a disconnected graph on [V >= 2] vertices with
    well-formed edges, [kruskalMST] never returns a tree: the loop uses up
    the sorted edges with fewer than [V - 1] accepted and the next read of
    [self.graph[i]] raises [IndexError]. *)
Theorem kruskalMST_disconnected (fuel : nat) (self : Graph) :
  wf_edges (v self) (graph self) → 2 ≤ v self →
  ¬ connected (v self) (graph self) → v self ≤ Z.of_nat fuel →
  snd (kruskalMST fuel self) = IndexError.
Proof.
  intros Hwf Hn Hnc Hfuel.
  set (L := sorted edge_w (graph self)).
  destruct (kruskal_run fuel (v self) L L [] (sorted_sorted _ _)) as [_ Hrun];
    [lia|done|by rewrite app_nil_r| |].
  { intros ed Hin. apply Hwf. by apply sorted_elem_of in Hin. }
  destruct Hrun as (c & k & Hinv & Hi & Hg & Hw).
  { intros [_ Hconn]. apply Hnc. split; [lia|]. intros x y Hx Hy.
    eapply reach_mono; [|by apply Hconn].
    intros ed Hin. by apply sorted_elem_of in Hin. }
  rewrite kruskalMST_unfold. fold L. rewrite Hw.
  by rewrite (while_loop_exhausted k fuel (v self) L c Hg Hi).
Qed.

Lemma kruskalMST_disconnected_witness :
  snd (kruskalMST 4 islands) = IndexError.
Proof.
  apply (kruskalMST_disconnected 4 islands).
  - apply wf_edges_Forall. vm_compute. repeat constructor; discriminate.
  - vm_compute. discriminate.
  - exact islands_disconnected.
  - vm_compute. discriminate.
Defined.

(** ** Degenerate vertex counts *)

(** C8. With [V = 0] or [V = 1] the loop condition is false at once: whatever
    the edges are, [kruskalMST] returns normally with no edge selected and
    total weight 0. *)
Theorem kruskalMST_trivial (fuel : nat) (self : Graph) :
  v self = 0 ∨ v self = 1 →
  snd (kruskalMST fuel self)
  = Ok (Output [] 0 ["Edges in the constructed MST:";
                     "Minimum spanning tree's total weight: 0"]%string).
Proof.
  intros Hv. rewrite kruskalMST_unfold. simpl.
  destruct (Z.ltb_spec 0 (v self - 1)); [lia|]. reflexivity.
Qed.

Lemma kruskalMST_trivial_witness :
  snd (kruskalMST 0 (mkGraph 1 [mkEdge 0 7 3; mkEdge 0 0 1]))
  = Ok (Output [] 0 ["Edges in the constructed MST:";
                     "Minimum spanning tree's total weight: 0"]%string).
Proof.
  apply (kruskalMST_trivial 0 (mkGraph 1 [mkEdge 0 7 3; mkEdge 0 0 1])).
  right. reflexivity.
Defined.

(** ** The caller's graph *)

Lemma kruskalMST_graph (fuel : nat) (self : Graph) :
  fst (kruskalMST fuel self) = mkGraph (v self) (sorted edge_w (graph self)).
Proof. reflexivity. Qed.

(** C9 fails on the code: [kruskalMST] assigns the sorted list to
    [self.graph], so after the call the edges of the main graph are in
    ascending order of weight, not in the order they were added. *)
Theorem kruskalMST_reorders_graph :
  graph (fst (kruskalMST 4 main_graph))
  = [mkEdge 2 3 4; mkEdge 0 3 5; mkEdge 0 2 6; mkEdge 0 1 10; mkEdge 1 3 15]
  ∧ graph (fst (kruskalMST 4 main_graph)) ≠ graph main_graph.
Proof. split; [reflexivity|discriminate]. Qed.

(** ** [find] and [union] on their own *)

(** C5 fails on the code: [find] returns the root and stores nothing.  After
    three passes over the chain graph the parent list is [0, 0, 0, 2, 4];
    the call [find(parent, 3)] walks 3, 2, 0 and returns 0, and afterwards
    [parent[3]] is still 2. *)
Theorem find_no_path_compression :
  (c1 ← loop_body 5 chain_graph (c0 5);
   c2 ← loop_body 5 chain_graph c1;
   c3 ← loop_body 5 chain_graph c2;
   Ok (uf c3)) = Ok (Store [0; 0; 0; 2; 4] [2; 0; 1; 0; 0])
  ∧ find 5 3 (Store [0; 0; 0; 2; 4] [2; 0; 1; 0; 0])
    = Ok (0, Store [0; 0; 0; 2; 4] [2; 0; 1; 0; 0])
  ∧ getitem [0; 0; 0; 2; 4] 3 = Ok 2.
Proof. split_and!; reflexivity. Qed.

(** C6. Called on two roots [x] and [y], [union] hangs the root of smaller
    rank under the other and leaves the ranks alone; when the ranks are
    equal it hangs [y] under [x] and adds one to the rank of [x].  Nothing
    else in [parent] or [rank] changes.  (The equations also hold when
    [x = y].) *)
Theorem union_by_rank (fuel : nat) (p rk : list Z) (x y rx ry : Z) :
  (0 < fuel)%nat → is_root p x → is_root p y →
  rk !! Z.to_nat x = Some rx → rk !! Z.to_nat y = Some ry →
  (rx < ry →
     union fuel x y (Store p rk) = Ok (tt, Store (<[Z.to_nat x := y]> p) rk))
  ∧ (rx > ry →
     union fuel x y (Store p rk) = Ok (tt, Store (<[Z.to_nat y := x]> p) rk))
  ∧ (rx = ry →
     union fuel x y (Store p rk)
     = Ok (tt, Store (<[Z.to_nat y := x]> p) (<[Z.to_nat x := rx + 1]> rk))).
Proof.
  intros Hf Hx Hy Hrx Hry.
  rewrite (union_roots fuel p rk x y rx ry Hf Hx Hy Hrx Hry).
  split_and!; intros Hcmp.
  - by rewrite decide_True.
  - rewrite decide_False by lia. by rewrite decide_True by lia.
  - rewrite decide_False by lia. by rewrite decide_False by lia.
Qed.

Lemma union_by_rank_witness :
  (0 < 1 → union 1 0 1 (Store [0; 1; 1] [0; 1; 0]) = Ok (tt, Store [1; 1; 1] [0; 1; 0]))
  ∧ (0 > 1 → union 1 0 1 (Store [0; 1; 1] [0; 1; 0]) = Ok (tt, Store [0; 0; 1] [0; 1; 0]))
  ∧ (0 = 1 → union 1 0 1 (Store [0; 1; 1] [0; 1; 0]) = Ok (tt, Store [0; 0; 1] [1; 1; 0])).
Proof.
  apply (union_by_rank 1 [0; 1; 1] [0; 1; 0] 0 1 0 1).
  - lia.
  - split; [lia|reflexivity].
  - split; [lia|reflexivity].
  - reflexivity.
  - reflexivity.
Defined.

(** ** Endpoints that are not vertices *)

Lemma find_out_of_bounds (fuel : nat) (s : store) (u : Z) :
  (0 < fuel)%nat → ¬ in_bounds (Z.of_nat (length (parent s))) u →
  find fuel u s = IndexError.
Proof.
  intros Hf Hu. destruct fuel as [|fuel]; [lia|]. simpl.
  unfold mbind, M_bind, parent_at. rewrite getitem_out; [done|].
  unfold in_bounds in Hu. lia.
Qed.

(** A subscript in [-n, 0) names the vertex [n] places further up. *)
Lemma find_wrapped (fuel : nat) (n : Z) (p rk : list Z) (acc : list Edge)
    (d : nat) (u : Z) :
  uf_inv n p acc d → - n ≤ u < 0 → (S d < fuel)%nat →
  ∃ r, find fuel u (Store p rk) = Ok (r, Store p rk).
Proof.
  intros Hinv Hu Hf. destruct fuel as [|fuel]; [lia|].
  pose proof (ufi_len _ _ _ _ Hinv) as Hlen.
  destruct (ufi_root _ _ _ _ Hinv (u + n) ltac:(lia)) as [r Hr].
  assert (∃ j, p !! Z.to_nat (u + n) = Some j ∧ 0 ≤ j ∧ root_in p d j r)
    as (j & Hj & Hj0 & Hjr).
  { inversion Hr as [? ? [H0 Hl]|? ? j ? H0 Hl Hne Hjr]; subst.
    - eexists. split_and!; [exact Hl|lia|done].
    - exists j. split_and!; [done| |].
      + apply root_in_range in Hjr. lia.
      + eapply root_in_mono; [|exact Hjr]. lia. }
  assert (parent_at u (Store p rk) = Ok (j, Store p rk)) as Hp.
  { unfold parent_at, getitem. simpl.
    rewrite py_index_wrap by lia. rewrite Hlen. by rewrite Hj. }
  exists r. simpl. rewrite (M_bind_ok _ _ _ _ _ Hp).
  destruct (Z.eqb_spec j u); [lia|].
  rewrite (M_bind_ok _ _ _ _ _ Hp).
  apply (find_root_in fuel d); [done|lia].
Qed.

Lemma loop_body_invalid (n : Z) (L : list Edge) (fuel : nat) (c : locals)
    (ed : Edge) :
  loop_inv n L c → L !! Z.to_nat (i c) = Some ed → guard n c →
  n ≤ Z.of_nat fuel → invalid n ed →
  loop_body fuel (mkGraph n L) c = IndexError.
Proof.
  intros Hinv Hk Hg Hfuel Hbad.
  destruct c as [[p rk] ic ec m]. unfold guard in Hg.
  destruct Hinv as [Hi He Huf Hrank _ _ _ _]. simpl in *.
  pose proof (ufi_len _ _ _ _ Huf) as Hlen.
  unfold loop_body. simpl.
  rewrite (getitem_lookup L ic ed (proj1 Hi) Hk). simpl.
  destruct ed as [u0 v0 w0]. unfold invalid, in_bounds in Hbad. simpl in Hbad.
  assert (find fuel u0 (Store p rk) = IndexError
          ∨ ∃ x, find fuel u0 (Store p rk) = Ok (x, Store p rk)) as [Hu|[x Hu]].
  { destruct (decide (- n ≤ u0 < n)) as [Hin|Hout].
    - right. destruct (decide (u0 < 0)).
      + eapply find_wrapped; eauto; lia.
      + destruct (ufi_root _ _ _ _ Huf u0 ltac:(lia)) as [x Hx].
        exists x. apply (find_root_in fuel (length m)); [done|lia].
    - left. apply find_out_of_bounds; [lia|]. simpl. by rewrite Hlen. }
  { by rewrite Hu. }
  rewrite Hu. simpl.
  destruct (decide (- n ≤ v0 < n)) as [Hin|Hout].
  - destruct Hbad as [Hbad|Hbad]; [|done].
    rewrite find_out_of_bounds in Hu; [done|lia|]. simpl. by rewrite Hlen.
  - rewrite find_out_of_bounds; [done|lia|]. simpl. by rewrite Hlen.
Qed.

(** C7 does not hold as stated: the stray edge (0,5,2) is never
    looked at, the graph has been sorted, and the run succeeds. *)
Lemma kruskalMST_stray_accepted :
  mkEdge 0 5 2 ∈ graph stray_graph
  ∧ kruskalMST 2 stray_graph
    = (mkGraph 2 [mkEdge 0 1 1; mkEdge 0 5 2],
       Ok (Output [mkEdge 0 1 1] 1
             ["Edges in the constructed MST:"; "0 -- 1: weight == 1";
              "Minimum spanning tree's total weight: 1"]%string)).
Proof. split; [repeat constructor|reflexivity]. Qed.

(** An endpoint in [-V, 0) is not noticed at all: the subscript wraps, so
    the edge (0,-1,1) is taken for an edge between vertices 0 and 1. *)
Lemma kruskalMST_negative_endpoint :
  snd (kruskalMST 2 (mkGraph 2 [mkEdge 0 (-1) 1]))
  = Ok (report [mkEdge 0 (-1) 1]).
Proof. reflexivity. Qed.

(** C7, amended.  Nothing is validated and the edges are sorted first.  Let
    the sorted list be [pre ++ ed :: post] with [pre] well formed and [ed]
    the first edge with an endpoint outside [-V, V).  If the edges of [pre]
    do not connect the [V] vertices, the loop reaches [ed] and [find] raises
    [IndexError] at the subscript [parent[i]]; if they do, the loop has its
    [V - 1] edges before it reads [ed] and the run succeeds. *)
Theorem kruskalMST_invalid_vertex (fuel : nat) (self : Graph)
    (pre post : list Edge) (ed : Edge) :
  0 < v self → v self ≤ Z.of_nat fuel →
  sorted edge_w (graph self) = pre ++ ed :: post →
  wf_edges (v self) pre → invalid (v self) ed →
  fst (kruskalMST fuel self) = mkGraph (v self) (pre ++ ed :: post)
  ∧ (¬ connected (v self) pre → snd (kruskalMST fuel self) = IndexError)
  ∧ (connected (v self) pre →
     ∃ out, snd (kruskalMST fuel self) = Ok out ∧ out_mst out ⊆ pre).
Proof.
  intros Hn Hfuel HL Hwf Hbad.
  destruct (kruskal_run fuel (v self) (sorted edge_w (graph self)) pre
              (ed :: post) (sorted_sorted _ _) Hn Hfuel HL Hwf) as [Hyes Hno].
  split_and!.
  - by rewrite kruskalMST_graph, HL.
  - intros Hnc. destruct (Hno Hnc) as (c & k & Hinv & Hi & Hg & Hw).
    rewrite kruskalMST_unfold, Hw. simpl.
    unfold guard in Hg. destruct (Z.ltb_spec (e c) (v self - 1)); [|lia].
    rewrite (loop_body_invalid _ _ fuel c ed); try done.
    rewrite Hi, Nat2Z.id, HL. by rewrite list_lookup_middle.
  - intros Hc. destruct (Hyes Hc) as (c & Hw & Hinv & He & Hsub).
    exists (report (mst c)). split; [|done].
    rewrite kruskalMST_unfold. by rewrite Hw.
Qed.

Lemma kruskalMST_invalid_vertex_witness :
  fst (kruskalMST 2 (mkGraph 2 [mkEdge 0 5 2]))
  = mkGraph 2 ([] ++ mkEdge 0 5 2 :: [])
  ∧ (¬ connected 2 [] → snd (kruskalMST 2 (mkGraph 2 [mkEdge 0 5 2])) = IndexError)
  ∧ (connected 2 [] →
     ∃ out, snd (kruskalMST 2 (mkGraph 2 [mkEdge 0 5 2])) = Ok out
            ∧ out_mst out ⊆ []).
Proof.
  apply (kruskalMST_invalid_vertex 2 (mkGraph 2 [mkEdge 0 5 2]) [] []
           (mkEdge 0 5 2)).
  - simpl. lia.
  - simpl. lia.
  - reflexivity.
  - intros ed Hin. by apply elem_of_nil in Hin.
  - right. unfold in_bounds. simpl. lia.
Defined.

(** ** The forest invariant *)

Lemma while_loop_reachable (k fuel : nat) (self : Graph) (c c' : locals) :
  reachable fuel self c → while_loop k fuel self c = Ok c' →
  reachable fuel self c'.
Proof.
  revert c. induction k as [|k IH]; intros c Hc; simpl;
    destruct (Z.ltb_spec (e c) (v self - 1)) as [Hg|Hg]; try congruence.
  destruct (loop_body fuel self c) as [c1| |] eqn:Hb; simpl; try done.
  apply IH. by eapply reachable_step.
Qed.

Lemma getitem_self_root (p : list Z) (j : Z) :
  Forall (λ x, 0 ≤ x) p → getitem p j = Ok j → is_root p j.
Proof.
  intros Hp. unfold getitem, py_index.
  destruct (Z.ltb_spec j 0) as [Hneg|Hpos].
  - destruct (_ && _); [|done].
    destruct (p !! _) as [x|] eqn:Hl; [|done].
    intros [= ->]. rewrite Forall_forall in Hp.
    apply list_elem_of_lookup_2, Hp in Hl. lia.
  - destruct (_ && _); [|done].
    destruct (p !! _) as [x|] eqn:Hl; [|done].
    intros [= ->]. split; [lia|done].
Qed.

(** Whatever it is called on, [find] can only return a root. *)
Lemma find_returns_root (fuel : nat) (s s' : store) (j r : Z) :
  Forall (λ x, 0 ≤ x) (parent s) → find fuel j s = Ok (r, s') →
  is_root (parent s) r.
Proof.
  intros Hp. revert j. induction fuel as [|fuel IH]; intros j; simpl; [done|].
  unfold mbind at 1. unfold M_bind.
  destruct (parent_at j s) as [[x s1]| |] eqn:E1; try done.
  pose proof (parent_at_frame _ _ _ _ E1) as ->.
  destruct (Z.eqb_spec x j) as [->|Hne].
  - unfold mret, M_ret. intros [= <- <-].
    apply getitem_self_root; [done|].
    unfold parent_at in E1. destruct (getitem (parent s) j); simpl in E1; congruence.
  - unfold mbind, M_bind. rewrite E1. apply IH.
Qed.

Lemma forest_inv_nonneg (n : Z) (p : list Z) :
  forest_inv n p → Forall (λ x, 0 ≤ x) p.
Proof.
  intros (_ & Hp & _). eapply Forall_impl; [exact Hp|]. simpl. intros; lia.
Qed.

Lemma forest_inv_link (n : Z) (p : list Z) (x y : Z) :
  forest_inv n p → is_root p x → is_root p y →
  forest_inv n (<[Z.to_nat x := y]> p).
Proof.
  intros Hinv Hx Hy. destruct (decide (x = y)) as [->|Hxy].
  { rewrite list_insert_id; [done|apply Hy]. }
  destruct Hinv as (Hlen & Hp & Hroot). split_and!.
  - by rewrite length_insert.
  - apply Forall_insert; [done|]. apply is_root_range in Hy. lia.
  - intros j Hj. destruct (Hroot j Hj) as [r Hr].
    eexists. by apply link_root_of.
Qed.

Lemma forest_inv_init (n : Z) : forest_inv n (parent (make_sets n)).
Proof.
  rewrite make_sets_eq. simpl. split_and!.
  - apply length_seqZ.
  - apply Forall_seqZ. intros; lia.
  - intros j Hj. exists j. by apply root_of_root, seqZ_is_root.
Qed.

Lemma union_forest_inv (fuel : nat) (n : Z) (s s' : store) (x y : Z) (u : unit) :
  forest_inv n (parent s) → length (rank s) = length (parent s) →
  union fuel x y s = Ok (u, s') →
  forest_inv n (parent s') ∧ length (rank s') = length (parent s').
Proof.
  intros Hinv Hrank Hun. destruct s as [p rk]. simpl in *.
  pose proof (forest_inv_nonneg _ _ Hinv) as Hnn.
  assert (∃ xr, find fuel x (Store p rk) = Ok (xr, Store p rk)) as [xr Hfx].
  { unfold union in Hun. unfold mbind at 1 in Hun. unfold M_bind in Hun.
    destruct (find fuel x (Store p rk)) as [[xr s1]| |] eqn:E; try done.
    pose proof (find_frame _ _ _ _ _ E) as ->. eauto. }
  assert (∃ yr, find fuel y (Store p rk) = Ok (yr, Store p rk)) as [yr Hfy].
  { unfold union in Hun. rewrite (M_bind_ok _ _ _ _ _ Hfx) in Hun.
    unfold mbind at 1 in Hun. unfold M_bind in Hun.
    destruct (find fuel y (Store p rk)) as [[yr s1]| |] eqn:E; try done.
    pose proof (find_frame _ _ _ _ _ E) as ->. eauto. }
  pose proof (find_returns_root fuel (Store p rk) _ _ _ Hnn Hfx) as Hx.
  pose proof (find_returns_root fuel (Store p rk) _ _ _ Hnn Hfy) as Hy.
  simpl in Hx, Hy.
  destruct (lookup_lt_is_Some_2 rk (Z.to_nat xr)) as [rx Hlx].
  { apply is_root_range in Hx. lia. }
  destruct (lookup_lt_is_Some_2 rk (Z.to_nat yr)) as [ry Hly].
  { apply is_root_range in Hy. lia. }
  rewrite (union_found fuel p rk x y xr yr rx ry) in Hun by done.
  injection Hun as _ <-.
  repeat case_decide; simpl; rewrite ?length_insert;
    split; try done; by apply forest_inv_link.
Qed.

Lemma loop_body_forest_inv (fuel : nat) (self : Graph) (c c' : locals) :
  forest_inv (v self) (parent (uf c)) →
  length (rank (uf c)) = length (parent (uf c)) →
  loop_body fuel self c = Ok c' →
  forest_inv (v self) (parent (uf c'))
  ∧ length (rank (uf c')) = length (parent (uf c')).
Proof.
  intros Hinv Hrank. unfold loop_body.
  destruct (getitem (graph self) (i c)) as [[u0 v0 w0]| |]; simpl; try done.
  destruct (find fuel u0 (uf c)) as [[x s1]| |] eqn:Ex; simpl; try done.
  pose proof (find_frame _ _ _ _ _ Ex) as ->.
  destruct (find fuel v0 (uf c)) as [[y s2]| |] eqn:Ey; simpl; try done.
  pose proof (find_frame _ _ _ _ _ Ey) as ->.
  destruct (x =? y); simpl.
  - intros [= <-]. done.
  - destruct (union fuel x y (uf c)) as [[u s3]| |] eqn:Eu; simpl; try done.
    intros [= <-]. simpl. by eapply union_forest_inv.
Qed.

Lemma reachable_forest_inv (fuel : nat) (self : Graph) (c : locals) :
  reachable fuel self c →
  forest_inv (v self) (parent (uf c))
  ∧ length (rank (uf c)) = length (parent (uf c)).
Proof.
  induction 1 as [|c c' Hc [IH1 IH2] Hg Hb].
  - split; [apply forest_inv_init|].
    unfold c0. simpl. rewrite make_sets_eq. simpl.
    by rewrite length_replicate, length_seqZ.
  - by eapply loop_body_forest_inv.
Qed.

(** C10. The forest invariant holds of [parent] after the initialisation
    loop; [find] on a vertex returns its root, with enough recursion depth
    always returns, and stores nothing; [union] on two vertices returns and
    keeps the invariant; and every state that the [while] loop of
    [kruskalMST] passes through satisfies it. *)
Theorem forest_invariant (n : Z) :
  forest_inv n (parent (make_sets n))
  ∧ (∀ s j, forest_inv n (parent s) → 0 ≤ j < n →
       ∃ r k, root_of (parent s) j r
              ∧ ∀ fuel, (k < fuel)%nat → find fuel j s = Ok (r, s))
  ∧ (∀ s x y, forest_inv n (parent s) → length (rank s) = length (parent s) →
       0 ≤ x < n → 0 ≤ y < n →
       ∃ k, ∀ fuel, (k < fuel)%nat →
         ∃ s', union fuel x y s = Ok (tt, s')
               ∧ forest_inv n (parent s')
               ∧ length (rank s') = length (parent s'))
  ∧ (∀ fuel L c, reachable fuel (fst (kruskalMST fuel (mkGraph n L))) c →
       forest_inv n (parent (uf c))).
Proof.
  split_and!.
  - apply forest_inv_init.
  - intros s j (_ & _ & Hroot) Hj. destruct (Hroot j Hj) as [r [k Hr]].
    exists r, k. split; [by exists k|].
    intros fuel Hf. by apply (find_root_in fuel k).
  - intros [p rk] x y Hinv Hrank Hx Hy. simpl in *.
    destruct Hinv as (Hlen & Hp & Hroot).
    destruct (Hroot x Hx) as [xr [kx Hxr]].
    destruct (Hroot y Hy) as [yr [ky Hyr]].
    exists (kx `max` ky)%nat. intros fuel Hf.
    pose proof (find_root_in fuel kx (Store p rk) x xr Hxr ltac:(lia)) as Hfx.
    pose proof (find_root_in fuel ky (Store p rk) y yr Hyr ltac:(lia)) as Hfy.
    pose proof (root_in_is_root _ _ _ _ Hxr) as Hrx.
    pose proof (root_in_is_root _ _ _ _ Hyr) as Hry.
    destruct (lookup_lt_is_Some_2 rk (Z.to_nat xr)) as [rx Hlx].
    { apply is_root_range in Hrx. lia. }
    destruct (lookup_lt_is_Some_2 rk (Z.to_nat yr)) as [ry Hly].
    { apply is_root_range in Hry. lia. }
    eexists. split; [by apply (union_found fuel p rk x y xr yr rx ry)|].
    eapply (union_forest_inv fuel n (Store p rk)); [done..|].
    by apply (union_found fuel p rk x y xr yr rx ry).
  - intros fuel L c Hc. by apply reachable_forest_inv in Hc as [Hc _].
Qed.

(** * Further properties of the code *)

(** ** [find] *)

Lemma parent_at_getitem (s s' : store) (j x : Z) :
  parent_at j s = Ok (x, s') → getitem (parent s) j = Ok x.
Proof.
  unfold parent_at. destruct (getitem (parent s) j); simpl; congruence.
Qed.

Lemma getitem_parent_at (s : store) (j x : Z) :
  getitem (parent s) j = Ok x → parent_at j s = Ok (x, s).
Proof. unfold parent_at. by intros ->. Qed.

Lemma find_fixed_point (fuel : nat) (s s' : store) (j r : Z) :
  find fuel j s = Ok (r, s') → getitem (parent s) r = Ok r.
Proof.
  revert j. induction fuel as [|fuel IH]; intros j; simpl; [done|].
  unfold mbind at 1. unfold M_bind.
  destruct (parent_at j s) as [[x s1]| |] eqn:E1; try done.
  pose proof (parent_at_frame _ _ _ _ E1) as ->.
  destruct (Z.eqb_spec x j) as [->|Hne].
  - unfold mret, M_ret. intros [= <- <-]. by eapply parent_at_getitem.
  - unfold mbind, M_bind. rewrite E1. apply IH.
Qed.

(** X1. Whenever [find] returns, the value [r] it returns is its own parent
    ([parent[r] == r]) and neither [parent] nor [rank] has been changed. *)
Theorem find_reads_only (fuel : nat) (s s' : store) (j r : Z) :
  find fuel j s = Ok (r, s') → s' = s ∧ getitem (parent s) r = Ok r.
Proof.
  intros H. split; [by eapply find_frame|by eapply find_fixed_point].
Qed.

Lemma find_reads_only_witness :
  Store [0; 0; 1] [1; 0; 0] = Store [0; 0; 1] [1; 0; 0]
  ∧ getitem (parent (Store [0; 0; 1] [1; 0; 0])) 0 = Ok 0.
Proof.
  apply (find_reads_only 3 (Store [0; 0; 1] [1; 0; 0]) _ 2 0). reflexivity.
Defined.

(** X2. [find] is idempotent: called again on the value it returned, it
    returns that value at once (one call deep). *)
Theorem find_idempotent (fuel fuel' : nat) (s s' : store) (j r : Z) :
  find fuel j s = Ok (r, s') → find (S fuel') r s = Ok (r, s).
Proof.
  intros H. apply find_fixed_point, getitem_parent_at in H. simpl.
  rewrite (M_bind_ok _ _ _ _ _ H). by rewrite Z.eqb_refl.
Qed.

Lemma find_idempotent_witness :
  find 1 0 (Store [0; 0; 1] [1; 0; 0]) = Ok (0, Store [0; 0; 1] [1; 0; 0]).
Proof.
  apply (find_idempotent 3 0 (Store [0; 0; 1] [1; 0; 0])
           (Store [0; 0; 1] [1; 0; 0]) 2 0).
  reflexivity.
Defined.

Lemma getitem_in_bounds {A : Type} (l : list A) (j : Z) :
  in_bounds (Z.of_nat (length l)) j → ∃ x, getitem l j = Ok x ∧ x ∈ l.
Proof.
  unfold in_bounds. intros Hj. unfold getitem.
  destruct (decide (j < 0)).
  - rewrite py_index_wrap by lia.
    destruct (lookup_lt_is_Some_2 l (Z.to_nat (j + Z.of_nat (length l))))
      as [x Hx]; [lia|].
    rewrite Hx. exists x. split; [done|]. by eapply list_elem_of_lookup_2.
  - rewrite py_index_in_range by lia.
    destruct (lookup_lt_is_Some_2 l (Z.to_nat j)) as [x Hx]; [lia|].
    rewrite Hx. exists x. split; [done|]. by eapply list_elem_of_lookup_2.
Qed.

Lemma find_in_bounds (fuel : nat) (s : store) (j : Z) :
  Forall (in_bounds (Z.of_nat (length (parent s)))) (parent s) →
  in_bounds (Z.of_nat (length (parent s))) j →
  find fuel j s ≠ IndexError.
Proof.
  intros Hp. rewrite Forall_forall in Hp.
  revert j. induction fuel as [|fuel IH]; intros j Hj; simpl; [done|].
  destruct (getitem_in_bounds (parent s) j Hj) as (x & Hx & Hin).
  apply getitem_parent_at in Hx.
  rewrite (M_bind_ok _ _ _ _ _ Hx).
  destruct (x =? j); [done|].
  rewrite (M_bind_ok _ _ _ _ _ Hx). apply IH, Hp, Hin.
Qed.

(** X3. On a parent list whose entries are all valid subscripts, [find]
    raises [IndexError] exactly when the index it is called with is outside
    [-len, len). *)
Theorem find_IndexError_iff (fuel : nat) (s : store) (j : Z) :
  (0 < fuel)%nat →
  Forall (in_bounds (Z.of_nat (length (parent s)))) (parent s) →
  find fuel j s = IndexError ↔ ¬ in_bounds (Z.of_nat (length (parent s))) j.
Proof.
  intros Hf Hp. split.
  - intros Herr Hj. by apply (find_in_bounds fuel s j Hp Hj).
  - intros Hj. by apply find_out_of_bounds.
Qed.

Lemma find_IndexError_iff_witness :
  find 1 3 (Store [0; 0; 1] [1; 0; 0]) = IndexError
  ↔ ¬ in_bounds (Z.of_nat (length (parent (Store [0; 0; 1] [1; 0; 0])))) 3.
Proof.
  apply (find_IndexError_iff 1 (Store [0; 0; 1] [1; 0; 0]) 3).
  - lia.
  - simpl. unfold in_bounds. repeat constructor; lia.
Defined.

(** X4. A negative index [j] in [-V, 0) is not rejected: the subscript
    wraps, and [find] returns the root of vertex [j + V]. *)
Theorem find_negative_index (n : Z) (s : store) (j : Z) :
  forest_inv n (parent s) → - n ≤ j < 0 →
  ∃ r k, root_of (parent s) (j + n) r
         ∧ ∀ fuel, (k < fuel)%nat → find fuel j s = Ok (r, s).
Proof.
  intros (Hlen & Hp & Hroot) Hj.
  destruct (Hroot (j + n) ltac:(lia)) as [r [m Hr]].
  exists r, (S m). split; [by exists m|]. intros fuel Hf.
  destruct fuel as [|fuel]; [lia|].
  assert (∃ k, parent s !! Z.to_nat (j + n) = Some k ∧ 0 ≤ k
               ∧ root_in (parent s) m k r) as (k & Hk & Hk0 & Hkr).
  { inversion Hr as [? ? [H0 Hl]|? ? k ? H0 Hl Hne Hkr]; subst.
    - eexists. split_and!; [exact Hl|lia|done].
    - exists k. split_and!; [done| |].
      + apply root_in_range in Hkr. lia.
      + eapply root_in_mono; [|exact Hkr]. lia. }
  assert (parent_at j s = Ok (k, s)) as Hpa.
  { unfold parent_at, getitem.
    rewrite py_index_wrap by lia. rewrite Hlen, Z2Nat.id by lia. by rewrite Hk. }
  simpl. rewrite (M_bind_ok _ _ _ _ _ Hpa).
  destruct (Z.eqb_spec k j); [lia|].
  rewrite (M_bind_ok _ _ _ _ _ Hpa).
  apply (find_root_in fuel m); [done|lia].
Qed.

Lemma find_negative_index_witness :
  ∃ r k, root_of (parent (Store [0; 0; 1] [1; 0; 0])) (-1 + 3) r
         ∧ ∀ fuel, (k < fuel)%nat →
             find fuel (-1) (Store [0; 0; 1] [1; 0; 0])
             = Ok (r, Store [0; 0; 1] [1; 0; 0]).
Proof.
  apply (find_negative_index 3 (Store [0; 0; 1] [1; 0; 0]) (-1)).
  - split; [reflexivity|]. split; [repeat constructor; lia|].
    intros j Hj. exists 0.
    assert (j = 0 ∨ j = 1 ∨ j = 2) as [->|[->| ->]] by lia.
    + exists 0%nat. constructor. split; [lia|reflexivity].
    + exists 1%nat. eapply root_in_up; [lia|reflexivity|lia|].
      constructor. split; [lia|reflexivity].
    + exists 2%nat. eapply root_in_up; [lia|reflexivity|lia|].
      eapply root_in_up; [lia|reflexivity|lia|].
      constructor. split; [lia|reflexivity].
  - lia.
Defined.

(** X5. On a parent list in which no vertex is its own parent, [find] never
    returns: whatever the recursion depth allowed, it is used up. *)
Theorem find_without_root_diverges (fuel : nat) (s : store) (j : Z) :
  (∀ k, 0 ≤ k < Z.of_nat (length (parent s)) →
        ∃ x, parent s !! Z.to_nat k = Some x ∧ x ≠ k
             ∧ 0 ≤ x < Z.of_nat (length (parent s))) →
  0 ≤ j < Z.of_nat (length (parent s)) →
  find fuel j s = OutOfFuel.
Proof.
  intros Hno. revert j. induction fuel as [|fuel IH]; intros j Hj; [done|].
  destruct (Hno j Hj) as (x & Hx & Hne & Hxr). simpl.
  rewrite (M_bind_ok _ _ _ _ _ (parent_at_lookup s j x (proj1 Hj) Hx)).
  destruct (Z.eqb_spec x j); [done|].
  rewrite (M_bind_ok _ _ _ _ _ (parent_at_lookup s j x (proj1 Hj) Hx)).
  by apply IH.
Qed.

Lemma find_without_root_diverges_witness :
  find 7 0 (Store [1; 2; 0] [0; 0; 0]) = OutOfFuel.
Proof.
  apply (find_without_root_diverges 7 (Store [1; 2; 0] [0; 0; 0]) 0).
  - simpl. intros k Hk.
    assert (k = 0 ∨ k = 1 ∨ k = 2) as [->|[->| ->]] by lia.
    + exists 1. split_and!; [reflexivity|lia..].
    + exists 2. split_and!; [reflexivity|lia..].
    + exists 0. split_and!; [reflexivity|lia..].
  - simpl. lia.
Defined.

(** ** [union] *)

Lemma same_root_roots (p : list Z) (a b ra rb : Z) :
  root_of p a ra → root_of p b rb → same_root p a b ↔ ra = rb.
Proof.
  intros Ha Hb. split.
  - intros (r & Har & Hbr).
    rewrite (root_of_det _ _ _ _ Ha Har). by rewrite (root_of_det _ _ _ _ Hb Hbr).
  - intros ->. by exists rb.
Qed.

(** Which vertices share a tree once the root [xr] hangs under [yr]. *)
Lemma link_same_root (p : list Z) (xr yr a b ra rb : Z) :
  is_root p xr → is_root p yr → root_of p a ra → root_of p b rb →
  same_root (<[Z.to_nat xr := yr]> p) a b
  ↔ ra = rb ∨ (ra = xr ∧ rb = yr) ∨ (ra = yr ∧ rb = xr).
Proof.
  intros Hx Hy Ha Hb. destruct (decide (xr = yr)) as [->|Hxy].
  { rewrite list_insert_id by apply Hy.
    rewrite (same_root_roots p a b ra rb Ha Hb). intuition congruence. }
  pose proof (link_root_of p xr yr a ra Hx Hy Hxy Ha) as Ha'.
  pose proof (link_root_of p xr yr b rb Hx Hy Hxy Hb) as Hb'.
  rewrite (same_root_roots _ a b _ _ Ha' Hb').
  repeat case_decide; intuition congruence.
Qed.

(** X6. On a forest, [union] of two vertices returns and merges exactly
    their two sets: afterwards two vertices share a root if and only if they
    did before, or one was with [x] and the other with [y]. *)
Theorem union_merges (n : Z) (s : store) (x y : Z) :
  forest_inv n (parent s) → length (rank s) = length (parent s) →
  0 ≤ x < n → 0 ≤ y < n →
  ∃ k, ∀ fuel, (k < fuel)%nat →
    ∃ s', union fuel x y s = Ok (tt, s')
          ∧ ∀ a b, 0 ≤ a < n → 0 ≤ b < n →
              same_root (parent s') a b
              ↔ same_root (parent s) a b
                ∨ (same_root (parent s) a x ∧ same_root (parent s) y b)
                ∨ (same_root (parent s) a y ∧ same_root (parent s) x b).
Proof.
  destruct s as [p rk]. simpl. intros (Hlen & Hp & Hroot) Hrank Hx Hy.
  destruct (Hroot x Hx) as [xr [kx Hxr]].
  destruct (Hroot y Hy) as [yr [ky Hyr]].
  exists (kx `max` ky)%nat. intros fuel Hf.
  pose proof (find_root_in fuel kx (Store p rk) x xr Hxr ltac:(lia)) as Hfx.
  pose proof (find_root_in fuel ky (Store p rk) y yr Hyr ltac:(lia)) as Hfy.
  pose proof (root_in_is_root _ _ _ _ Hxr) as Hrx.
  pose proof (root_in_is_root _ _ _ _ Hyr) as Hry.
  destruct (lookup_lt_is_Some_2 rk (Z.to_nat xr)) as [rx Hlx].
  { apply is_root_range in Hrx. lia. }
  destruct (lookup_lt_is_Some_2 rk (Z.to_nat yr)) as [ry Hly].
  { apply is_root_range in Hry. lia. }
  eexists. split; [by apply (union_found fuel p rk x y xr yr rx ry)|].
  intros a b Ha Hb.
  destruct (Hroot a Ha) as [ra Hra]. destruct (Hroot b Hb) as [rb Hrb].
  assert (root_of p x xr) as Hox by (by exists kx).
  assert (root_of p y yr) as Hoy by (by exists ky).
  rewrite (same_root_roots p a b ra rb Hra Hrb).
  rewrite (same_root_roots p a x ra xr Hra Hox).
  rewrite (same_root_roots p y b yr rb Hoy Hrb).
  rewrite (same_root_roots p a y ra yr Hra Hoy).
  rewrite (same_root_roots p x b xr rb Hox Hrb).
  repeat case_decide; simpl.
  - rewrite (link_same_root p xr yr a b ra rb); intuition congruence.
  - rewrite (link_same_root p yr xr a b ra rb); intuition congruence.
  - rewrite (link_same_root p yr xr a b ra rb); intuition congruence.
Qed.

Lemma forest_inv_three : forest_inv 3 [0; 0; 2].
Proof.
  split; [reflexivity|]. split; [repeat constructor; lia|].
  intros j Hj.
  assert (j = 0 ∨ j = 1 ∨ j = 2) as [->|[->| ->]] by lia.
  - exists 0, 0%nat. constructor. split; [lia|reflexivity].
  - exists 0, 1%nat. eapply root_in_up; [lia|reflexivity|lia|].
    constructor. split; [lia|reflexivity].
  - exists 2, 0%nat. constructor. split; [lia|reflexivity].
Qed.

Lemma union_merges_witness :
  ∃ k, ∀ fuel, (k < fuel)%nat →
    ∃ s', union fuel 1 2 (Store [0; 0; 2] [1; 0; 0]) = Ok (tt, s')
          ∧ ∀ a b, 0 ≤ a < 3 → 0 ≤ b < 3 →
              same_root (parent s') a b
              ↔ same_root [0; 0; 2] a b
                ∨ (same_root [0; 0; 2] a 1 ∧ same_root [0; 0; 2] 2 b)
                ∨ (same_root [0; 0; 2] a 2 ∧ same_root [0; 0; 2] 1 b).
Proof.
  apply (union_merges 3 (Store [0; 0; 2] [1; 0; 0]) 1 2).
  - exact forest_inv_three.
  - reflexivity.
  - lia.
  - lia.
Defined.

(** X7. When [x] and [y] are already in one set, [union] leaves [parent] as
    it is but still adds one to the rank of their root. *)
Theorem union_same_set (p rk : list Z) (x y r k : Z) :
  root_of p x r → root_of p y r → rk !! Z.to_nat r = Some k →
  ∃ m, ∀ fuel, (m < fuel)%nat →
    union fuel x y (Store p rk)
    = Ok (tt, Store p (<[Z.to_nat r := k + 1]> rk)).
Proof.
  intros [kx Hx] [ky Hy] Hk.
  exists (kx `max` ky)%nat. intros fuel Hf.
  pose proof (find_root_in fuel kx (Store p rk) x r Hx ltac:(lia)) as Hfx.
  pose proof (find_root_in fuel ky (Store p rk) y r Hy ltac:(lia)) as Hfy.
  pose proof (root_in_is_root _ _ _ _ Hx) as Hr.
  rewrite (union_found fuel p rk x y r r k k Hfx Hfy Hr Hr Hk Hk).
  rewrite !decide_False by lia.
  rewrite list_insert_id by apply Hr. done.
Qed.

Lemma union_same_set_witness :
  ∃ m, ∀ fuel, (m < fuel)%nat →
    union fuel 1 0 (Store [0; 0; 2] [1; 0; 0])
    = Ok (tt, Store [0; 0; 2] (<[Z.to_nat 0 := 1 + 1]> [1; 0; 0])).
Proof.
  apply (union_same_set [0; 0; 2] [1; 0; 0] 1 0 0 1).
  - exists 1%nat. eapply root_in_up; [lia|reflexivity|lia|].
    constructor. split; [lia|reflexivity].
  - exists 0%nat. constructor. split; [lia|reflexivity].
  - reflexivity.
Defined.

(** ** [kruskalMST] on arbitrary input *)

Lemma getitem_nonneg {A : Type} (l : list A) (j : Z) (x : A) :
  0 ≤ j → getitem l j = Ok x → l !! Z.to_nat j = Some x.
Proof.
  intros Hj. unfold getitem, py_index.
  destruct (Z.ltb_spec j 0); [lia|].
  destruct (_ && _); [|done].
  destruct (l !! Z.to_nat j); [|done]. congruence.
Qed.

(** The two ways through the body of the loop. *)
Lemma loop_body_cases (fuel : nat) (self : Graph) (c c' : locals) :
  loop_body fuel self c = Ok c' →
  ∃ ed x y,
    getitem (graph self) (i c) = Ok ed
    ∧ find fuel (edge_u ed) (uf c) = Ok (x, uf c)
    ∧ find fuel (edge_v ed) (uf c) = Ok (y, uf c)
    ∧ i c' = i c + 1
    ∧ ((x = y ∧ uf c' = uf c ∧ e c' = e c ∧ mst c' = mst c)
       ∨ (x ≠ y ∧ union fuel x y (uf c) = Ok (tt, uf c')
          ∧ e c' = e c + 1 ∧ mst c' = mst c ++ [ed])).
Proof.
  unfold loop_body.
  destruct (getitem (graph self) (i c)) as [[u0 v0 w0]| |]; simpl; try done.
  destruct (find fuel u0 (uf c)) as [[x s1]| |] eqn:Ex; simpl; try done.
  pose proof (find_frame _ _ _ _ _ Ex) as ->.
  destruct (find fuel v0 (uf c)) as [[y s2]| |] eqn:Ey; simpl; try done.
  pose proof (find_frame _ _ _ _ _ Ey) as ->.
  destruct (Z.eqb_spec x y) as [->|Hxy]; simpl.
  - intros [= <-]. exists (mkEdge u0 v0 w0), y, y. simpl.
    split_and!; [done..|]. left. by split_and!.
  - destruct (union fuel x y (uf c)) as [[[] s3]| |] eqn:Eu; simpl; try done.
    intros [= <-]. exists (mkEdge u0 v0 w0), x, y. simpl.
    split_and!; [done..|]. right. by split_and!.
Qed.

Lemma find_fuel_pos (fuel : nat) (s s' : store) (j r : Z) :
  find fuel j s = Ok (r, s') → (0 < fuel)%nat.
Proof. destruct fuel; [done|lia]. Qed.

(** What [union] does to [parent] when handed two roots. *)
Lemma union_roots_link (fuel : nat) (p rk : list Z) (x y : Z) (s' : store) :
  (0 < fuel)%nat → is_root p x → is_root p y → length rk = length p →
  union fuel x y (Store p rk) = Ok (tt, s') →
  length (rank s') = length (parent s')
  ∧ (parent s' = <[Z.to_nat x := y]> p ∨ parent s' = <[Z.to_nat y := x]> p).
Proof.
  intros Hf Hx Hy Hlen.
  destruct (lookup_lt_is_Some_2 rk (Z.to_nat x)) as [rx Hlx].
  { apply is_root_range in Hx. lia. }
  destruct (lookup_lt_is_Some_2 rk (Z.to_nat y)) as [ry Hly].
  { apply is_root_range in Hy. lia. }
  rewrite (union_roots fuel p rk x y rx ry Hf Hx Hy Hlx Hly).
  intros [= <-]. repeat case_decide; simpl; rewrite ?length_insert; auto.
Qed.

Lemma link_depth (p : list Z) (x y : Z) (d : nat) (j r : Z) :
  is_root p x → is_root p y → x ≠ y → root_in p d j r →
  ∃ r', root_in (<[Z.to_nat x := y]> p) (S d) j r'.
Proof.
  intros Hx Hy Hxy Hr. destruct (decide (r = x)) as [->|Hne].
  - exists y. by apply link_root_in_moved.
  - exists r. eapply root_in_mono; [|by apply link_root_in_other]. lia.
Qed.

Lemma run_inv_init (self : Graph) : run_inv self (c0 (v self)).
Proof.
  unfold c0. split; simpl.
  - lia.
  - done.
  - lia.
  - apply sublist_nil_l.
  - intros ed Hin. by apply elem_of_nil in Hin.
  - apply forest_inv_init.
  - rewrite make_sets_eq. simpl. by rewrite length_replicate, length_seqZ.
  - intros j Hj. exists j. constructor. rewrite make_sets_eq. simpl.
    by apply seqZ_is_root.
Qed.

Lemma run_inv_step (fuel : nat) (self : Graph) (c c' : locals) :
  run_inv self c → guard (v self) c → loop_body fuel self c = Ok c' →
  run_inv self c'.
Proof.
  intros [Hi He Hle Hsub Hloops Hforest Hrank Hdepth] Hg Hb.
  unfold guard in Hg.
  destruct (loop_body_cases _ _ _ _ Hb) as (ed & x & y & Hed & Hfx & Hfy & Hi' & Hcase).
  apply (getitem_nonneg _ _ _ (proj1 Hi)) in Hed.
  pose proof (lookup_lt_Some _ _ _ Hed) as Hlt.
  assert (Z.to_nat (i c') = S (Z.to_nat (i c))) as Hnext by lia.
  assert (take (S (Z.to_nat (i c))) (graph self)
          = take (Z.to_nat (i c)) (graph self) ++ [ed]) as Htake
    by (by apply take_S_r).
  destruct Hcase as [(-> & Huf & He' & Hmst)|(Hxy & Hun & He' & Hmst)].
  - split; rewrite ?Huf, ?Hmst, ?He', ?Hnext, ?Htake; try done; [lia|].
    by apply sublist_inserts_r.
  - pose proof (forest_inv_nonneg _ _ Hforest) as Hnn.
    pose proof (find_returns_root _ _ _ _ _ Hnn Hfx) as Hx.
    pose proof (find_returns_root _ _ _ _ _ Hnn Hfy) as Hy.
    destruct (uf c) as [p rk] eqn:Euf. simpl in *.
    destruct (union_roots_link fuel p rk x y (uf c')
                (find_fuel_pos _ _ _ _ _ Hfx) Hx Hy Hrank Hun) as [Hrank' Hp'].
    split; rewrite ?Hmst, ?He', ?Hnext, ?Htake; try done.
    + lia.
    + rewrite length_app. simpl. lia.
    + lia.
    + by apply sublist_app.
    + intros f Hf. apply elem_of_app in Hf as [Hf|Hf]; [auto|].
      apply list_elem_of_singleton in Hf as ->.
      intros Huv. rewrite Huv in Hfx. congruence.
    + destruct Hp' as [-> | ->]; by apply forest_inv_link.
    + intros j Hj. destruct (Hdepth j Hj) as [r Hr].
      replace (length (mst c ++ [ed])) with (S (length (mst c)))
        by (rewrite length_app; simpl; lia).
      destruct Hp' as [-> | ->]; eapply link_depth; eauto.
Qed.

Lemma reachable_run_inv (fuel : nat) (self : Graph) (c : locals) :
  reachable fuel self c → run_inv self c.
Proof.
  induction 1 as [|c c' Hc IH Hg Hb]; [apply run_inv_init|].
  by eapply run_inv_step.
Qed.

Lemma while_loop_exit (k fuel : nat) (self : Graph) (c c' : locals) :
  while_loop k fuel self c = Ok c' → ¬ guard (v self) c'.
Proof.
  revert c. induction k as [|k IH]; intros c; simpl;
    destruct (Z.ltb_spec (e c) (v self - 1)) as [Hg|Hg]; try done.
  - intros [= <-]. unfold guard. lia.
  - destruct (loop_body fuel self c) as [c1| |]; simpl; try done. apply IH.
  - intros [= <-]. unfold guard. lia.
Qed.

(** When the method returns, it prints the [mst] of a loop state in which
    the loop condition is false. *)
Lemma kruskalMST_Ok_state (fuel : nat) (self : Graph) (out : output) :
  snd (kruskalMST fuel self) = Ok out →
  ∃ c, reachable fuel (fst (kruskalMST fuel self)) c
       ∧ ¬ guard (v self) c ∧ out = report (mst c).
Proof.
  rewrite kruskalMST_unfold.
  destruct (while_loop _ _ _ _) as [c| |] eqn:Hw; simpl; try done.
  intros [= <-]. exists c. split_and!; [| |done].
  - eapply while_loop_reachable; [|exact Hw].
    apply (reachable_init fuel (mkGraph (v self) (sorted edge_w (graph self)))).
  - exact (while_loop_exit _ _ _ _ _ Hw).
Qed.

Lemma sublist_StronglySorted {A : Type} (R : relation A) (l1 l2 : list A) :
  l1 `sublist_of` l2 → StronglySorted R l2 → StronglySorted R l1.
Proof.
  induction 1 as [|x l1 l2 Hsub IH|x l1 l2 Hsub IH]; intros Hs.
  - constructor.
  - apply StronglySorted_cons in Hs as [Hx Hs]. constructor; [auto|].
    rewrite Forall_forall in Hx |- *. intros y Hy.
    by apply Hx, (sublist_subseteq _ _ Hsub).
  - apply StronglySorted_cons in Hs as [_ Hs]. auto.
Qed.

(** X8. Whatever the input, when [kruskalMST] returns it has selected
    exactly [V - 1] edges, or none when [V <= 1]; it never returns a
    shorter list. *)
Theorem kruskalMST_edge_count (fuel : nat) (self : Graph) (out : output) :
  snd (kruskalMST fuel self) = Ok out →
  Z.of_nat (length (out_mst out)) = Z.max 0 (v self - 1).
Proof.
  intros H. apply kruskalMST_Ok_state in H as (c & Hc & Hg & ->).
  apply reachable_run_inv in Hc as [_ He Hle _ _ _ _ _].
  unfold guard in Hg. simpl in *. lia.
Qed.

Lemma kruskalMST_edge_count_witness :
  Z.of_nat (length (out_mst (report [mkEdge 0 (-1) 1])))
  = Z.max 0 (v (mkGraph 2 [mkEdge 0 (-1) 1]) - 1).
Proof.
  apply (kruskalMST_edge_count 2 (mkGraph 2 [mkEdge 0 (-1) 1])).
  reflexivity.
Defined.

(** X9. Whatever the input, the edges [kruskalMST] selects are edges of the
    graph, listed in the order of the sorted edge list: a subsequence of
    it, hence in ascending order of weight. *)
Theorem kruskalMST_selection_order (fuel : nat) (self : Graph) (out : output) :
  snd (kruskalMST fuel self) = Ok out →
  out_mst out `sublist_of` sorted edge_w (graph self)
  ∧ out_mst out ⊆ graph self
  ∧ StronglySorted (by_key edge_w) (out_mst out).
Proof.
  intros H. apply kruskalMST_Ok_state in H as (c & Hc & Hg & ->).
  apply reachable_run_inv in Hc as [_ _ _ Hsub _ _ _ _]. simpl in *.
  assert (mst c `sublist_of` sorted edge_w (graph self)) as Hs.
  { etrans; [exact Hsub|]. apply sublist_take. }
  split_and!; [done| |].
  - intros ed Hin. apply (sublist_subseteq _ _ Hs) in Hin.
    by apply sorted_elem_of in Hin.
  - eapply sublist_StronglySorted; [exact Hs|apply sorted_sorted].
Qed.

Lemma kruskalMST_selection_order_witness :
  out_mst (report [mkEdge 0 1 1]) `sublist_of` sorted edge_w (graph stray_graph)
  ∧ out_mst (report [mkEdge 0 1 1]) ⊆ graph stray_graph
  ∧ StronglySorted (by_key edge_w) (out_mst (report [mkEdge 0 1 1])).
Proof.
  apply (kruskalMST_selection_order 2 stray_graph). reflexivity.
Defined.

(** X10. Whatever the input, [kruskalMST] never selects a self-loop: both
    ends of a self-loop are found in the same set. *)
Theorem kruskalMST_no_self_loop (fuel : nat) (self : Graph) (out : output) :
  snd (kruskalMST fuel self) = Ok out →
  ∀ ed, ed ∈ out_mst out → edge_u ed ≠ edge_v ed.
Proof.
  intros H. apply kruskalMST_Ok_state in H as (c & Hc & Hg & ->).
  by apply reachable_run_inv in Hc as [_ _ _ _ Hloops _ _ _].
Qed.

Lemma kruskalMST_no_self_loop_witness :
  snd (kruskalMST 2 (mkGraph 2 [mkEdge 0 1 5; mkEdge 1 1 (-3); mkEdge 0 0 0]))
  = Ok (report [mkEdge 0 1 5])
  ∧ edge_u (mkEdge 0 1 5) ≠ edge_v (mkEdge 0 1 5).
Proof.
  split; [reflexivity|].
  apply (kruskalMST_no_self_loop 2
           (mkGraph 2 [mkEdge 0 1 5; mkEdge 1 1 (-3); mkEdge 0 0 0])
           (report [mkEdge 0 1 5])).
  - reflexivity.
  - simpl. apply list_elem_of_here.
Defined.

(** On a forest of depth at most [d], [find] returns or raises whatever the
    index, given [d + 2] levels of recursion. *)
Lemma find_total (fuel : nat) (n : Z) (s : store) (d : nat) (u : Z) :
  forest_inv n (parent s) →
  (∀ j, 0 ≤ j < n → ∃ r, root_in (parent s) d j r) →
  (S d < fuel)%nat →
  find fuel u s = IndexError ∨ ∃ r, find fuel u s = Ok (r, s).
Proof.
  intros (Hlen & Hp & _) Hdepth Hf.
  assert (0 ≤ n → Z.of_nat (length (parent s)) = n) as Hlen' by lia.
  destruct (decide (0 ≤ u < n)) as [Hin|Hout].
  { right. destruct (Hdepth u Hin) as [r Hr]. exists r.
    apply (find_root_in fuel d); [done|lia]. }
  destruct (decide (- n ≤ u < 0)) as [Hneg|Hbad].
  - right. destruct fuel as [|fuel]; [lia|].
    destruct (lookup_lt_is_Some_2 (parent s) (Z.to_nat (u + n))) as [k Hk];
      [lia|].
    assert (0 ≤ k < n) as Hkn.
    { rewrite Forall_forall in Hp. by eapply Hp, list_elem_of_lookup_2. }
    destruct (Hdepth k Hkn) as [r Hr]. exists r.
    assert (parent_at u s = Ok (k, s)) as Hpa.
    { unfold parent_at, getitem.
      rewrite py_index_wrap by lia. rewrite Hlen' by lia. by rewrite Hk. }
    simpl. rewrite (M_bind_ok _ _ _ _ _ Hpa).
    destruct (Z.eqb_spec k u); [lia|].
    rewrite (M_bind_ok _ _ _ _ _ Hpa).
    apply (find_root_in fuel d); [done|lia].
  - left. apply find_out_of_bounds; [lia|]. unfold in_bounds. lia.
Qed.

Lemma loop_body_returns_or_raises (fuel : nat) (self : Graph) (c : locals)
    (d : nat) :
  run_inv self c →
  (∀ j, 0 ≤ j < v self → ∃ r, root_in (parent (uf c)) d j r) →
  (S d < fuel)%nat →
  loop_body fuel self c = IndexError ∨ ∃ c', loop_body fuel self c = Ok c'.
Proof.
  intros [Hi He Hle Hsub Hloops Hforest Hrank _] Hdepth Hd.
  unfold loop_body.
  destruct (getitem (graph self) (i c)) as [[u0 v0 w0]| |] eqn:Hed; simpl;
    [|by left|by apply getitem_never_diverges in Hed].
  destruct (find_total fuel (v self) (uf c) _ u0 Hforest Hdepth Hd)
    as [Hu|[x Hu]]; rewrite Hu; simpl; [by left|].
  destruct (find_total fuel (v self) (uf c) _ v0 Hforest Hdepth Hd)
    as [Hv|[y Hv]]; rewrite Hv; simpl; [by left|].
  destruct (Z.eqb_spec x y) as [->|Hxy]; simpl; [right; eauto|].
  pose proof (forest_inv_nonneg _ _ Hforest) as Hnn.
  pose proof (find_returns_root _ _ _ _ _ Hnn Hu) as Hx.
  pose proof (find_returns_root _ _ _ _ _ Hnn Hv) as Hy.
  destruct (uf c) as [p rk]. simpl in *.
  destruct (lookup_lt_is_Some_2 rk (Z.to_nat x)) as [rx Hlx].
  { apply is_root_range in Hx. lia. }
  destruct (lookup_lt_is_Some_2 rk (Z.to_nat y)) as [ry Hly].
  { apply is_root_range in Hy. lia. }
  rewrite (union_roots fuel p rk x y rx ry) by (done || lia).
  right. simpl. eauto.
Qed.

Lemma while_loop_returns_or_raises (fuel : nat) (self : Graph) (k : nat)
    (c : locals) :
  (∀ c, reachable fuel self c → guard (v self) c →
        ∃ d, (S d < fuel)%nat
             ∧ ∀ j, 0 ≤ j < v self → ∃ r, root_in (parent (uf c)) d j r) →
  reachable fuel self c →
  (length (graph self) - Z.to_nat (i c) < k)%nat →
  while_loop k fuel self c = IndexError
  ∨ ∃ c', while_loop k fuel self c = Ok c'.
Proof.
  intros Hdeep. revert c. induction k as [|k IH]; intros c Hc Hk; [lia|].
  pose proof (reachable_run_inv _ _ _ Hc) as Hinv.
  simpl. destruct (Z.ltb_spec (e c) (v self - 1)) as [Hg|Hg]; [|right; eauto].
  destruct (Hdeep c Hc Hg) as (d & Hd & Hdepth).
  destruct (loop_body_returns_or_raises fuel self c d Hinv Hdepth Hd)
    as [Hb|[c1 Hb]]; rewrite Hb; simpl; [by left|].
  apply IH; [by eapply reachable_step|].
  destruct (loop_body_cases _ _ _ _ Hb) as (ed & _ & _ & Hed & _ & _ & Hi' & _).
  pose proof (ri_i _ _ Hinv) as Hi.
  apply (getitem_nonneg _ _ _ (proj1 Hi)), lookup_lt_Some in Hed. lia.
Qed.



(** ** The graph object across calls *)

Lemma sorted_idem {A : Type} (key : A → Z) (l : list A) :
  StronglySorted (by_key key) l → sorted key l = l.
Proof.
  induction 1 as [|x l Hl IH Hx]; simpl; [done|].
  fold (sorted key l). rewrite IH.
  destruct l as [|y l]; simpl; [done|].
  apply Forall_cons in Hx as [Hxy _]. unfold by_key in Hxy.
  destruct (Z.leb_spec (key x) (key y)); [done|lia].
Qed.

(** X12. What [kruskalMST] does to the object it is called on, whether it
    returns or raises: the vertex count stays, and [self.graph] holds the
    same edges rearranged in ascending order of weight, edges of equal
    weight in the order they had. *)
Theorem kruskalMST_sorts_graph (fuel : nat) (self : Graph) :
  v (fst (kruskalMST fuel self)) = v self
  ∧ graph (fst (kruskalMST fuel self)) ≡ₚ graph self
  ∧ StronglySorted (by_key edge_w) (graph (fst (kruskalMST fuel self)))
  ∧ ∀ w, filter (λ ed, edge_w ed = w) (graph (fst (kruskalMST fuel self)))
         = filter (λ ed, edge_w ed = w) (graph self).
Proof.
  rewrite kruskalMST_graph. simpl. split_and!.
  - done.
  - apply sorted_perm.
  - apply sorted_sorted.
  - intros w. apply sorted_stable.
Qed.

(** X13. A second call on the same object changes nothing more and gives
    the same outcome as the first: the list it sorts is already sorted. *)
Theorem kruskalMST_twice (fuel : nat) (self : Graph) :
  kruskalMST fuel (fst (kruskalMST fuel self)) = kruskalMST fuel self.
Proof.
  rewrite kruskalMST_graph. unfold kruskalMST. simpl.
  by rewrite (sorted_idem edge_w _ (sorted_sorted edge_w (graph self))).
Qed.

(** X14. The total weight does not depend on the order in which the edges
    were added: two connected graphs with the same vertices and the same
    edges, added in any order, get the same total weight (the selected
    edges themselves may differ among edges of equal weight). *)
Theorem kruskalMST_weight_order_independent (fuel : nat) (g1 g2 : Graph) :
  v g1 = v g2 → graph g1 ≡ₚ graph g2 →
  wf_edges (v g1) (graph g1) → connected (v g1) (graph g1) →
  v g1 ≤ Z.of_nat fuel →
  ∃ o1 o2, snd (kruskalMST fuel g1) = Ok o1
           ∧ snd (kruskalMST fuel g2) = Ok o2
           ∧ minimum_cost o1 = minimum_cost o2.
Proof.
  intros Hv Hperm Hwf1 Hconn1 Hfuel.
  assert (∀ ed, ed ∈ graph g1 ↔ ed ∈ graph g2) as Hsame.
  { intros ed. by rewrite Hperm. }
  assert (wf_edges (v g2) (graph g2)) as Hwf2.
  { rewrite <- Hv. intros ed Hin. by apply Hwf1, Hsame. }
  assert (connected (v g2) (graph g2)) as Hconn2.
  { rewrite <- Hv. destruct Hconn1 as [Hn Hc]. split; [done|].
    intros x y Hx Hy. eapply reach_mono; [|by apply Hc].
    intros ed Hin. by apply Hsame. }
  destruct (kruskalMST_connected fuel g1 Hwf1 Hconn1 Hfuel)
    as (c1 & Hr1 & Hinv1 & He1).
  destruct (kruskalMST_connected fuel g2 Hwf2 Hconn2 ltac:(lia))
    as (c2 & Hr2 & Hinv2 & He2).
  exists (report (mst c1)), (report (mst c2)). split_and!; [done..|].
  rewrite !report_cost.
  assert (∀ (ga gb : Graph) ca cb,
            v ga = v gb → (∀ ed, ed ∈ graph ga ↔ ed ∈ graph gb) →
            wf_edges (v gb) (graph gb) → 0 < v gb →
            loop_inv (v ga) (sorted edge_w (graph ga)) ca → e ca = v ga - 1 →
            loop_inv (v gb) (sorted edge_w (graph gb)) cb → e cb = v gb - 1 →
            total_weight (mst cb) ≤ total_weight (mst ca)) as Hle.
  { intros ga gb ca cb Hvab Hab Hwfb Hnb Hia Hea Hib Heb.
    eapply (loop_inv_minimum (v gb) (sorted edge_w (graph gb)));
      eauto using sorted_sorted.
    - intros ed Hin. apply Hwfb. by apply sorted_elem_of in Hin.
    - split_and!.
      + intros ed Hin. apply sorted_elem_of, Hab.
        apply (li_sub _ _ _ Hia), subseteq_take in Hin.
        by apply sorted_elem_of in Hin.
      + rewrite <- Hvab. eapply uf_inv_spanning; [apply Hia|lia|].
        pose proof (li_e _ _ _ Hia). lia.
      + apply acyclic_all_bridges, Hia. }
  apply Z.le_antisymm.
  - apply (Hle g2 g1 c2 c1); auto; [by symmetry|apply Hconn1].
  - apply (Hle g1 g2 c1 c2); auto. apply Hconn2.
Qed.

Lemma kruskalMST_weight_order_independent_witness :
  ∃ o1 o2, snd (kruskalMST 4 main_graph) = Ok o1
           ∧ snd (kruskalMST 4 (mkGraph 4 (reverse (graph main_graph)))) = Ok o2
           ∧ minimum_cost o1 = minimum_cost o2.
Proof.
  apply (kruskalMST_weight_order_independent 4 main_graph
           (mkGraph 4 (reverse (graph main_graph)))).
  - reflexivity.
  - simpl. symmetry. apply reverse_Permutation.
  - exact main_graph_wf.
  - exact main_graph_connected.
  - vm_compute. discriminate.
Defined.

(** ** Union by rank *)

Lemma rank_of_nonneg (rk : list Z) (j : Z) :
  Forall (λ x, 0 ≤ x) rk → 0 ≤ rank_of rk j.
Proof.
  intros Hrk. unfold rank_of.
  destruct (rk !! Z.to_nat j) as [x|] eqn:Hx; simpl; [|lia].
  rewrite Forall_forall in Hrk. by eapply Hrk, list_elem_of_lookup_2.
Qed.

Lemma rank_of_lookup (rk : list Z) (j x : Z) :
  rk !! Z.to_nat j = Some x → rank_of rk j = x.
Proof. unfold rank_of. by intros ->. Qed.

Lemma rank_of_insert_ne (rk : list Z) (x j a : Z) :
  0 ≤ x → 0 ≤ j → j ≠ x → rank_of (<[Z.to_nat x := a]> rk) j = rank_of rk j.
Proof.
  intros Hx Hj Hne. unfold rank_of. rewrite list_lookup_insert_ne; [done|lia].
Qed.

Lemma rank_of_insert_eq (rk : list Z) (x a : Z) :
  (Z.to_nat x < length rk)%nat → rank_of (<[Z.to_nat x := a]> rk) x = a.
Proof. intros Hx. unfold rank_of. by rewrite list_lookup_insert_eq. Qed.

Lemma rank_mass_nonneg (rk l : list Z) : 0 ≤ rank_mass rk l.
Proof.
  induction l as [|r l IH]; simpl; [lia|].
  pose proof (Z.pow_nonneg 2 (rank_of rk r)). lia.
Qed.

Lemma rank_mass_remove (rk l : list Z) (x : Z) :
  NoDup l → x ∈ l →
  rank_mass rk l = 2 ^ rank_of rk x + rank_mass rk (filter (λ r, r ≠ x) l).
Proof.
  induction 1 as [|a l Ha Hnd IH]; intros Hin; [by apply elem_of_nil in Hin|].
  rewrite filter_cons. destruct (decide (a = x)) as [->|Hne].
  - rewrite decide_False by auto. simpl. f_equal.
    rewrite filter_all; [done|]. intros r Hr ->. done.
  - rewrite decide_True by done. simpl.
    apply elem_of_cons in Hin as [->|Hin]; [done|].
    rewrite (IH Hin). lia.
Qed.

Lemma rank_mass_insert_absent (rk l : list Z) (x a : Z) :
  0 ≤ x → (∀ r, r ∈ l → 0 ≤ r ∧ r ≠ x) →
  rank_mass (<[Z.to_nat x := a]> rk) l = rank_mass rk l.
Proof.
  intros Hx. induction l as [|r l IH]; intros Hl; simpl; [done|].
  destruct (Hl r (list_elem_of_here _ _)) as [Hr Hne].
  rewrite rank_of_insert_ne by done. f_equal.
  apply IH. intros r' Hr'. by apply Hl, list_elem_of_further.
Qed.

Lemma roots_link_filter (p : list Z) (x y : Z) :
  is_root p x → x ≠ y →
  roots (<[Z.to_nat x := y]> p) = filter (λ r, r ≠ x) (roots p).
Proof.
  intros Hx Hxy. unfold roots. rewrite length_insert, list_filter_filter.
  apply list_filter_iff. intros r.
  rewrite (link_is_root p x y Hx Hxy). tauto.
Qed.

(** The mass once the root [x] has been hung under another root. *)
Lemma rank_mass_link (p rk : list Z) (x y : Z) :
  is_root p x → x ≠ y →
  rank_mass rk (roots p)
  = 2 ^ rank_of rk x + rank_mass rk (roots (<[Z.to_nat x := y]> p)).
Proof.
  intros Hx Hxy. rewrite (roots_link_filter p x y Hx Hxy).
  apply rank_mass_remove; [apply NoDup_roots|by apply elem_of_roots].
Qed.

Lemma rank_ordered_link (p rk : list Z) (x y : Z) :
  rank_ordered p rk → is_root p x → rank_of rk x < rank_of rk y →
  rank_ordered (<[Z.to_nat x := y]> p) rk.
Proof.
  intros Hord Hx Hlt j k Hj Hk0 Hk Hne.
  assert (x ≠ y) as Hxy by (intros ->; lia).
  destruct (decide (j = x)) as [->|Hjx].
  - rewrite (link_lookup_eq p x y Hx) in Hk. by injection Hk as <-.
  - rewrite (link_lookup_ne p x y Hx j Hj Hjx) in Hk. by apply Hord.
Qed.

(** [union] of two distinct roots keeps the rank invariant. *)
Lemma rank_inv_union (fuel : nat) (p rk : list Z) (x y : Z) (s' : store) :
  rank_inv (Store p rk) → (0 < fuel)%nat →
  is_root p x → is_root p y → x ≠ y → length rk = length p →
  union fuel x y (Store p rk) = Ok (tt, s') → rank_inv s'.
Proof.
  intros [Hnn Hord Hmass] Hf Hx Hy Hxy Hlen. simpl in *.
  pose proof (is_root_range _ _ Hx) as Hxr.
  pose proof (is_root_range _ _ Hy) as Hyr.
  destruct (lookup_lt_is_Some_2 rk (Z.to_nat x)) as [rx Hlx]; [lia|].
  destruct (lookup_lt_is_Some_2 rk (Z.to_nat y)) as [ry Hly]; [lia|].
  pose proof (rank_of_lookup _ _ _ Hlx) as Erx.
  pose proof (rank_of_lookup _ _ _ Hly) as Ery.
  rewrite (union_roots fuel p rk x y rx ry Hf Hx Hy Hlx Hly).
  intros [= <-]. repeat case_decide; split; simpl; try done.
  - apply rank_ordered_link; [done..|lia].
  - rewrite length_insert.
    pose proof (rank_mass_link p rk x y Hx Hxy).
    pose proof (Z.pow_nonneg 2 (rank_of rk x)). lia.
  - apply rank_ordered_link; [done..|lia].
  - rewrite length_insert.
    pose proof (rank_mass_link p rk y x Hy ltac:(auto)).
    pose proof (Z.pow_nonneg 2 (rank_of rk y)). lia.
  - apply Forall_insert; [done|].
    pose proof (rank_of_nonneg rk x Hnn). lia.
  - intros j k Hj Hk0 Hk Hne.
    destruct (decide (j = y)) as [->|Hjy].
    + rewrite (link_lookup_eq p y x Hy) in Hk. injection Hk as <-.
      rewrite rank_of_insert_ne by (lia || auto).
      rewrite rank_of_insert_eq by lia. lia.
    + rewrite (link_lookup_ne p y x Hy j Hj Hjy) in Hk.
      assert (j ≠ x) as Hjx.
      { intros ->. destruct Hx as [_ Hx]. congruence. }
      rewrite (rank_of_insert_ne rk x j) by (lia || auto).
      specialize (Hord j k Hj Hk0 Hk Hne).
      destruct (decide (k = x)) as [->|Hkx].
      * rewrite rank_of_insert_eq by lia. lia.
      * rewrite rank_of_insert_ne by (lia || auto). done.
  - rewrite length_insert.
    pose proof (rank_mass_link p rk y x Hy ltac:(auto)) as Hm.
    assert (x ∈ roots (<[Z.to_nat y := x]> p)) as Hxin.
    { apply elem_of_roots, link_is_root; auto. }
    rewrite (rank_mass_remove _ _ x (NoDup_roots _) Hxin).
    rewrite (rank_mass_remove _ _ x (NoDup_roots _) Hxin) in Hm.
    rewrite rank_of_insert_eq by lia.
    rewrite rank_mass_insert_absent; [|lia|].
    2: { intros r Hr. apply list_elem_of_filter in Hr as [Hne Hr].
         apply elem_of_roots in Hr as [Hr0 _]. done. }
    assert (rx = ry) as -> by lia.
    replace (ry + 1) with (Z.succ ry) by lia.
    pose proof (rank_of_nonneg rk y Hnn) as Hry.
    rewrite Erx, Ery in Hm. rewrite Ery in Hry.
    rewrite Z.pow_succ_r by lia. lia.
Qed.

Lemma rank_of_replicate (m : nat) (j : Z) : rank_of (replicate m 0) j = 0.
Proof.
  unfold rank_of. destruct (replicate m 0 !! Z.to_nat j) as [x|] eqn:Hx; [|done].
  by apply lookup_replicate in Hx as [-> _].
Qed.

Lemma rank_mass_zero (rk l : list Z) :
  (∀ r, rank_of rk r = 0) → rank_mass rk l = Z.of_nat (length l).
Proof.
  intros Hrk. induction l as [|r l IH]; simpl; [done|].
  rewrite Hrk, IH. simpl. lia.
Qed.

Lemma rank_mass_elem (rk l : list Z) (r : Z) :
  r ∈ l → 2 ^ rank_of rk r ≤ rank_mass rk l.
Proof.
  induction l as [|a l IH]; intros Hin; [by apply elem_of_nil in Hin|].
  simpl. pose proof (rank_mass_nonneg rk l).
  pose proof (Z.pow_nonneg 2 (rank_of rk a)).
  apply elem_of_cons in Hin as [->|Hin]; [lia|]. specialize (IH Hin). lia.
Qed.

Lemma rank_inv_init (n : Z) : rank_inv (make_sets n).
Proof.
  rewrite make_sets_eq. split; simpl.
  - apply Forall_replicate. lia.
  - intros j k Hj Hk0 Hk Hne. apply lookup_seqZ in Hk as [-> _]. lia.
  - rewrite roots_seqZ, rank_mass_zero; [lia|]. intros r. apply rank_of_replicate.
Qed.

Lemma reachable_rank_inv (fuel : nat) (self : Graph) (c : locals) :
  reachable fuel self c → rank_inv (uf c).
Proof.
  induction 1 as [|c c' Hc IH Hg Hb]; [apply rank_inv_init|].
  pose proof (reachable_run_inv _ _ _ Hc) as Hrun.
  destruct (loop_body_cases _ _ _ _ Hb)
    as (ed & x & y & _ & Hfx & Hfy & _ & [(_ & -> & _)|(Hxy & Hun & _)]);
    [done|].
  pose proof (forest_inv_nonneg _ _ (ri_forest _ _ Hrun)) as Hnn.
  pose proof (find_returns_root _ _ _ _ _ Hnn Hfx) as Hx.
  pose proof (find_returns_root _ _ _ _ _ Hnn Hfy) as Hy.
  pose proof (ri_rank _ _ Hrun) as Hrank.
  destruct (uf c) as [p rk]. simpl in *.
  eapply (rank_inv_union fuel p rk x y); eauto.
  by eapply find_fuel_pos.
Qed.

(** With ranks growing along the links, the rank of the root bounds the
    number of links that lead to it. *)
Lemma rank_ordered_height (p rk : list Z) (n : nat) (j r : Z) :
  rank_ordered p rk → root_in p n j r →
  rank_of rk j ≤ rank_of rk r
  ∧ root_in p (Z.to_nat (rank_of rk r - rank_of rk j)) j r.
Proof.
  intros Hord. induction 1 as [n r Hr | n j k r Hj Hl Hne H [IH1 IH2]].
  - split; [lia|]. by constructor.
  - pose proof (root_in_range _ _ _ _ H) as Hk.
    pose proof (Hord j k Hj (proj1 Hk) Hl Hne) as Hlt.
    split; [lia|].
    replace (Z.to_nat (rank_of rk r - rank_of rk j))
      with (S (Z.to_nat (rank_of rk r - rank_of rk j - 1))) by lia.
    eapply root_in_up; eauto.
    eapply root_in_mono; [|exact IH2]. lia.
Qed.

(** X15. In every state that the loop of [kruskalMST] passes through,
    whatever the input, ranks grow strictly along parent links, so that
    from any vertex at most [rank[r]] links lead to its root [r]: the rank
    of a root bounds the height of its tree. *)
Theorem kruskalMST_rank_bounds_height (fuel : nat) (self : Graph)
    (c : locals) (j : Z) :
  reachable fuel (fst (kruskalMST fuel self)) c → 0 ≤ j < v self →
  rank_ordered (parent (uf c)) (rank (uf c))
  ∧ ∃ r, root_in (parent (uf c)) (Z.to_nat (rank_of (rank (uf c)) r)) j r.
Proof.
  intros Hc Hj.
  pose proof (reachable_rank_inv _ _ _ Hc) as [Hnn Hord _].
  pose proof (reachable_run_inv _ _ _ Hc) as Hrun.
  split; [done|].
  destruct (ri_depth _ _ Hrun j Hj) as [r Hr]. exists r.
  destruct (rank_ordered_height _ _ _ _ _ Hord Hr) as [_ Hh].
  eapply root_in_mono; [|exact Hh].
  pose proof (rank_of_nonneg (rank (uf c)) j Hnn). lia.
Qed.

Lemma chain_state_reachable :
  reachable 5 (fst (kruskalMST 5 chain_graph)) chain_state.
Proof.
  eapply reachable_step; [eapply reachable_step; [eapply reachable_step;
    [apply reachable_init|..]|..]|..]; simpl; try lia; reflexivity.
Qed.

Lemma kruskalMST_rank_bounds_height_witness :
  rank_ordered (parent (uf chain_state)) (rank (uf chain_state))
  ∧ ∃ r, root_in (parent (uf chain_state))
           (Z.to_nat (rank_of (rank (uf chain_state)) r)) 3 r.
Proof.
  apply (kruskalMST_rank_bounds_height 5 chain_graph chain_state 3).
  - exact chain_state_reachable.
  - simpl. lia.
Defined.

(** The depth that the ranks allow: two to the depth is at most [V]. *)
Lemma reachable_log_depth (fuel : nat) (self : Graph) (c : locals) (j : Z) :
  reachable fuel self c → 0 ≤ j < v self →
  ∃ r d, root_in (parent (uf c)) d j r ∧ 2 ^ Z.of_nat d ≤ v self.
Proof.
  intros Hc Hj.
  pose proof (reachable_rank_inv _ _ _ Hc) as [Hnn Hord Hmass].
  pose proof (reachable_run_inv _ _ _ Hc) as Hrun.
  destruct (ri_depth _ _ Hrun j Hj) as [r Hr].
  destruct (rank_ordered_height _ _ _ _ _ Hord Hr) as [_ Hh].
  exists r, (Z.to_nat (rank_of (rank (uf c)) r)). split.
  - eapply root_in_mono; [|exact Hh].
    pose proof (rank_of_nonneg (rank (uf c)) j Hnn). lia.
  - pose proof (rank_of_nonneg (rank (uf c)) r Hnn).
    rewrite Z2Nat.id by done.
    pose proof (rank_mass_elem (rank (uf c)) (roots (parent (uf c))) r) as Hel.
    destruct (ri_forest _ _ Hrun) as (Hlen & _ & _).
    etrans; [apply Hel|].
    + apply elem_of_roots. by eapply root_in_is_root.
    + lia.
Qed.

(** X16. Union by rank keeps the trees shallow: in every state that the
    loop of [kruskalMST] passes through, whatever the input, [find] on a
    vertex returns its root within [fuel] nested calls as soon as
    [V < 2 ^ fuel]; the depth of the recursion is logarithmic in [V]. *)
Theorem kruskalMST_find_depth_log (fuel0 fuel : nat) (self : Graph)
    (c : locals) (j : Z) :
  reachable fuel0 (fst (kruskalMST fuel0 self)) c → 0 ≤ j < v self →
  v self < 2 ^ Z.of_nat fuel →
  ∃ r, root_of (parent (uf c)) j r ∧ find fuel j (uf c) = Ok (r, uf c).
Proof.
  intros Hc Hj Hfuel.
  destruct (reachable_log_depth _ _ _ j Hc Hj) as (r & d & Hr & Hd).
  exists r. split; [by exists d|].
  apply (find_root_in fuel d); [done|].
  assert (2 ^ Z.of_nat d < 2 ^ Z.of_nat fuel) as Hlt by (simpl in *; lia).
  apply Z.pow_lt_mono_r_iff in Hlt; lia.
Qed.

Lemma kruskalMST_find_depth_log_witness :
  ∃ r, root_of (parent (uf chain_state)) 3 r
       ∧ find 3 3 (uf chain_state) = Ok (r, uf chain_state).
Proof.
  apply (kruskalMST_find_depth_log 5 3 chain_graph chain_state 3).
  - exact chain_state_reachable.
  - simpl. lia.
  - simpl. lia.
Defined.

(** X17. Whatever the input, [kruskalMST] comes to an end with a recursion
    depth that is only logarithmic in [V]: it returns its output or raises
    [IndexError] as soon as [2 * V < 2 ^ fuel]. *)
Theorem kruskalMST_terminates_log (fuel : nat) (self : Graph) :
  2 * v self < 2 ^ Z.of_nat fuel →
  snd (kruskalMST fuel self) = IndexError
  ∨ ∃ out, snd (kruskalMST fuel self) = Ok out.
Proof.
  intros Hfuel. rewrite kruskalMST_unfold.
  set (self' := mkGraph (v self) (sorted edge_w (graph self))).
  destruct (while_loop_returns_or_raises fuel self'
              (S (length (graph self'))) (c0 (v self'))) as [Hw|[c Hw]].
  { intros c Hc Hg. pose proof (reachable_run_inv _ _ _ Hc) as Hinv.
    pose proof (ri_e _ _ Hinv) as He. unfold guard in Hg. simpl in Hg.
    assert (2 ≤ fuel)%nat as Hf2.
    { destruct fuel as [|[|fuel]]; simpl in Hfuel; lia. }
    exists (fuel - 2)%nat. split; [lia|]. intros j Hj.
    destruct (reachable_log_depth _ _ _ j Hc Hj) as (r & d & Hr & Hd).
    exists r. eapply root_in_mono; [|exact Hr]. simpl in Hd.
    assert (2 ^ Z.of_nat (S d) < 2 ^ Z.of_nat fuel) as Hlt.
    { rewrite Nat2Z.inj_succ, Z.pow_succ_r by lia. lia. }
    apply Z.pow_lt_mono_r_iff in Hlt; lia. }
  { apply reachable_init. }
  { simpl. lia. }
  - left. change (sorted edge_w (graph self)) with (graph self') at 1.
    change (v self) with (v self'). by rewrite Hw.
  - right. change (sorted edge_w (graph self)) with (graph self') at 1.
    change (v self) with (v self'). rewrite Hw. simpl. eauto.
Qed.

Lemma kruskalMST_terminates_log_witness :
  snd (kruskalMST 4 chain_graph) = IndexError
  ∨ ∃ out, snd (kruskalMST 4 chain_graph) = Ok out.
Proof.
  apply (kruskalMST_terminates_log 4 chain_graph). simpl. lia.
Defined.

(** ** Edges that are never read, and edges that are missing *)

Lemma loop_body_prefix (fuel : nat) (n : Z) (pre post : list Edge) (c : locals) :
  0 ≤ i c < Z.of_nat (length pre) →
  loop_body fuel (mkGraph n (pre ++ post)) c = loop_body fuel (mkGraph n pre) c.
Proof.
  intros Hi. unfold loop_body. simpl.
  assert (getitem (pre ++ post) (i c) = getitem pre (i c)) as ->; [|done].
  unfold getitem. rewrite !py_index_in_range by (rewrite ?length_app; lia).
  by rewrite lookup_app_l by lia.
Qed.

Lemma while_loop_i_mono (k fuel : nat) (self : Graph) (c c' : locals) :
  while_loop k fuel self c = Ok c' → i c ≤ i c'.
Proof.
  revert c. induction k as [|k IH]; intros c; simpl;
    destruct (e c <? v self - 1); try done; try (intros [= <-]; lia).
  destruct (loop_body fuel self c) as [c1| |] eqn:Hb; simpl; try done.
  intros Hw. apply IH in Hw.
  destruct (loop_body_cases _ _ _ _ Hb) as (_ & _ & _ & _ & _ & _ & Hi & _). lia.
Qed.

(** A run that ends inside a prefix of the edge list is a run on the prefix. *)
Lemma while_loop_on_prefix (fuel : nat) (n : Z) (pre post : list Edge)
    (k k' : nat) (c c' : locals) :
  while_loop k fuel (mkGraph n (pre ++ post)) c = Ok c' →
  0 ≤ i c → i c' ≤ Z.of_nat (length pre) →
  (length pre - Z.to_nat (i c) < k')%nat →
  while_loop k' fuel (mkGraph n pre) c = Ok c'.
Proof.
  revert k' c. induction k as [|k IH]; intros k' c; simpl.
  - destruct (e c <? n - 1) eqn:Hg; [done|]. intros [= <-] _ _ Hk'.
    destruct k'; simpl; by rewrite Hg.
  - destruct (e c <? n - 1) eqn:Hg.
    2: { intros [= <-] _ _ Hk'. destruct k'; simpl; by rewrite Hg. }
    destruct (loop_body fuel (mkGraph n (pre ++ post)) c) as [c1| |] eqn:Hb;
      simpl; try done.
    intros Hw Hi Hi' Hk'.
    destruct (loop_body_cases _ _ _ _ Hb) as (_ & _ & _ & _ & _ & _ & Hi1 & _).
    pose proof (while_loop_i_mono _ _ _ _ _ Hw) as Hmono.
    destruct k' as [|k']; [lia|]. simpl. rewrite Hg.
    rewrite <- (loop_body_prefix fuel n pre post) by lia. rewrite Hb. simpl.
    apply (IH k' c1 Hw); lia.
Qed.

(** X18. Once the loop has its [V - 1] edges it reads no further edge: when
    the sorted edge list starts with well-formed edges [pre] that connect
    all vertices, the outcome is the one for the graph with the edges [pre]
    alone, whatever comes after them, ill-formed edges included. *)
Theorem kruskalMST_ignores_rest (fuel : nat) (n : Z) (pre post : list Edge) :
  StronglySorted (by_key edge_w) (pre ++ post) →
  wf_edges n pre → connected n pre → n ≤ Z.of_nat fuel →
  snd (kruskalMST fuel (mkGraph n (pre ++ post)))
  = snd (kruskalMST fuel (mkGraph n pre)).
Proof.
  intros Hs Hwf Hconn Hfuel.
  assert (StronglySorted (by_key edge_w) pre) as Hspre
    by (by apply StronglySorted_app_1_l in Hs).
  rewrite !kruskalMST_unfold. cbn [graph v]. rewrite !sorted_idem by done.
  set (L := pre ++ post).
  assert (take (length pre) L = pre) as Htake by apply take_app_length.
  assert (length pre ≤ length L)%nat as Hlen.
  { unfold L. rewrite length_app. lia. }
  destruct (while_loop_prefix n L fuel (length pre) Hs Hlen) with
    (k := S (length L)) (c := c0 n)
    as [(c & Hw & Hinv & Hi & Hg)|(c & Hinv & Hi & Hg & Hw)];
    [by rewrite Htake|done|apply loop_inv_init; destruct Hconn; lia
    |simpl; lia|simpl; lia| |].
  - rewrite Hw.
    rewrite (while_loop_on_prefix fuel n pre post _ (S (length pre)) _ c Hw);
      [done|simpl; lia|done|simpl; lia].
  - exfalso. destruct Hconn as [Hn Hconn].
    assert (connected n (mst c)) as Hc.
    { split; [done|]. intros x y Hx Hy.
      eapply (loop_inv_done_sub n L pre); eauto.
      rewrite Hi, Nat2Z.id. done. }
    pose proof (uf_inv_connected _ _ _ _ (li_uf _ _ _ Hinv) Hc).
    pose proof (li_e _ _ _ Hinv). unfold guard in Hg. lia.
Qed.

Lemma kruskalMST_ignores_rest_witness :
  snd (kruskalMST 2 (mkGraph 2 ([mkEdge 0 1 1] ++ [mkEdge 0 5 2; mkEdge 9 9 9])))
  = snd (kruskalMST 2 (mkGraph 2 [mkEdge 0 1 1])).
Proof.
  apply (kruskalMST_ignores_rest 2 2 [mkEdge 0 1 1]
           [mkEdge 0 5 2; mkEdge 9 9 9]).
  - repeat constructor; unfold by_key; simpl; lia.
  - apply wf_edges_Forall. repeat constructor; simpl; lia.
  - apply (connected_hub 2 0); [lia|]. intros x Hx.
    assert (x = 0 ∨ x = 1) as [->| ->] by lia; [constructor|].
    apply (reach_edge _ (mkEdge 0 1 1)). repeat constructor.
  - simpl. lia.
Defined.

Lemma kruskalMST_returns_or_raises (fuel : nat) (self : Graph) :
  v self ≤ Z.of_nat fuel →
  snd (kruskalMST fuel self) = IndexError
  ∨ ∃ out, snd (kruskalMST fuel self) = Ok out.
Proof.
  intros Hfuel. rewrite kruskalMST_unfold.
  set (self' := mkGraph (v self) (sorted edge_w (graph self))).
  destruct (while_loop_returns_or_raises fuel self'
              (S (length (graph self'))) (c0 (v self'))) as [Hw|[c Hw]].
  { intros c Hc Hg. pose proof (reachable_run_inv _ _ _ Hc) as Hinv.
    exists (length (mst c)). split; [|apply Hinv].
    pose proof (ri_e _ _ Hinv). unfold guard in Hg. simpl in *. lia. }
  { apply reachable_init. }
  { simpl. lia. }
  - left. change (sorted edge_w (graph self)) with (graph self') at 1.
    change (v self) with (v self'). by rewrite Hw.
  - right. change (sorted edge_w (graph self)) with (graph self') at 1.
    change (v self) with (v self'). rewrite Hw. simpl. eauto.
Qed.

(** X19. A graph with fewer than [V - 1] edges, the empty edge list
    included, always ends in [IndexError], whatever its edges are: the loop
    cannot collect [V - 1] edges and subscripts past the end of the list. *)
Theorem kruskalMST_too_few_edges (fuel : nat) (self : Graph) :
  Z.of_nat (length (graph self)) < v self - 1 → v self ≤ Z.of_nat fuel →
  snd (kruskalMST fuel self) = IndexError.
Proof.
  intros Hfew Hfuel.
  destruct (kruskalMST_returns_or_raises fuel self Hfuel) as [H|[out H]];
    [done|exfalso].
  apply kruskalMST_Ok_state in H as (c & Hc & Hg & _).
  apply reachable_run_inv in Hc as [_ He _ Hsub _ _ _ _]. simpl in *.
  apply sublist_length in Hsub. rewrite length_take in Hsub.
  assert (length (sorted edge_w (graph self)) = length (graph self)) as Hlen
    by (by rewrite sorted_perm).
  unfold guard in Hg. lia.
Qed.

Lemma kruskalMST_too_few_edges_witness :
  snd (kruskalMST 3 (mkGraph 3 [mkEdge 0 1 7])) = IndexError.
Proof.
  apply (kruskalMST_too_few_edges 3 (mkGraph 3 [mkEdge 0 1 7])).
  - simpl. lia.
  - simpl. lia.
Defined.
